(** * simplecrypt: password-based encryption of byte payloads

    A shallow embedding of [src/simplecrypt/__init__.py].  The module has two
    entry points, [encrypt] and [decrypt], and a handful of private helpers.
    Byte strings are lists of [byte]; a [str] is the list of its code points;
    Python integers are [Z]; an exception is a value of [exn] carried by
    [result]; the random source is threaded as explicit state.

    The primitives the module imports from the [Crypto] package (the AES block
    transformation, HMAC, SHA256, PBKDF2 and the random bit source) are the
    fields of the interface [Crypto]; the counter of [Crypto.Util.Counter] and
    counter mode are written out on top of the block transformation, so that
    the keystream is a term one can compute with. *)

From Stdlib Require Import ZArith List String Ascii Bool Lia.
From Stdlib.Strings Require Import Byte.
Import ListNotations.

Local Open Scope Z_scope.

(** ** Byte strings and Python slices *)

Definition bytes : Type := list byte.

(** [len(l)] *)
Definition len {A : Type} (l : list A) : Z := Z.of_nat (List.length l).

(** [sys.maxsize] of a 64-bit build: no sequence the interpreter holds is
    longer, so [len] of an argument never exceeds it. *)
Definition sys_maxsize : Z := 2 ^ 63 - 1.

(** The position a slice bound [i] denotes in a sequence of length [n]:
    a negative bound counts from the end, and the outcome is clamped to
    [0 .. n]. *)
Definition slice_index (n i : Z) : Z :=
  if i <? 0 then Z.max 0 (n + i) else Z.min i n.

(** [l[:j]] *)
Definition upto {A : Type} (l : list A) (j : Z) : list A :=
  firstn (Z.to_nat (slice_index (len l) j)) l.

(** [l[i:]] *)
Definition from {A : Type} (l : list A) (i : Z) : list A :=
  skipn (Z.to_nat (slice_index (len l) i)) l.

(** [l[i:j]] *)
Definition slice {A : Type} (l : list A) (i j : Z) : list A :=
  let lo := slice_index (len l) i in
  let hi := slice_index (len l) j in
  firstn (Z.to_nat (hi - lo)) (skipn (Z.to_nat lo) l).

Definition bytes_eq_dec : forall a b : bytes, {a = b} + {a <> b} :=
  list_eq_dec Byte.byte_eq_dec.

(** [a != b] on byte strings *)
Definition bytes_neq (a b : bytes) : bool :=
  if bytes_eq_dec a b then false else true.

(** ** Exceptions *)

Inductive exn : Type :=
| EncryptionException (msg : string)
| DecryptionException (msg : string)
| ValueError (msg : string)
| UnicodeEncodeError (reason : string)
| OverflowError (msg : string).

Inductive result (A : Type) : Type :=
| Ok (a : A)
| Raise (e : exn).

Arguments Ok {A} a.
Arguments Raise {A} e.

Definition result_bind {A B : Type} (r : result A) (k : A -> result B) : result B :=
  match r with
  | Ok a => k a
  | Raise e => Raise e
  end.

Declare Scope result_scope.
Delimit Scope result_scope with result.
Notation "x <- r ;; k" := (result_bind r (fun x => k))
  (at level 61, r at next level, right associativity) : result_scope.
Notation "r ;; k" := (result_bind r (fun _ => k))
  (at level 61, right associativity) : result_scope.

(** ** Module constants *)

Definition EXPANSION_COUNT : Z := 1000.
Definition AES_KEY_LEN : Z := 256.
Definition SALT_LEN : Z := 128.

(** [PREFIX = b'sc\x00\x00'] *)
Definition PREFIX : bytes := [x73; x63; x00; x00].

(** [AES.block_size], in bytes, and [SHA256.digest_size], in bytes: constants
    of the imported [Crypto] package. *)
Definition AES_block_size : Z := 16.
Definition HASH_digest_size : Z := 32.

(** lengths here are in bits, but pcrypto uses block size in bytes *)
Definition HALF_BLOCK : Z := AES_block_size * 8 / 2.

(** ** Length and prefix checks

    The argument of [encrypt] is a byte string the interpreter holds, so its
    [len] is at most [sys_maxsize], which is below [2^HALF_BLOCK]. *)

Definition _assert_encrypt_length (data : bytes) : result unit :=
  if len data >? 2 ^ HALF_BLOCK
  then Raise (EncryptionException "Message too long")
  else Ok tt.

Definition _assert_decrypt_length (data : bytes) : result unit :=
  if len data <? len PREFIX + SALT_LEN / 8 + HASH_digest_size
  then Raise (DecryptionException "Missing data")
  else Ok tt.

Definition _assert_prefix (data : bytes) : result unit :=
  if bytes_neq (upto data (len PREFIX)) PREFIX
  then Raise (DecryptionException "Bad data format")
  else Ok tt.

(** ** The random source as threaded state

    A computation that may draw from the random source takes the state of the
    source and hands back the state it leaves, together with a value or the
    exception that stopped it. *)

Definition rand (S A : Type) : Type := S -> result A * S.

Definition rand_ret {S A : Type} (a : A) : rand S A := fun s => (Ok a, s).

Definition rand_bind {S A B : Type} (m : rand S A) (k : A -> rand S B) : rand S B :=
  fun s =>
    match m s with
    | (Ok a, s') => k a s'
    | (Raise e, s') => (Raise e, s')
    end.

(** A step that does not touch the random source. *)
Definition lift {S A : Type} (r : result A) : rand S A := fun s => (r, s).

Declare Scope rand_scope.
Delimit Scope rand_scope with rand.
Notation "x <- m ;; k" := (rand_bind m (fun x => k))
  (at level 61, m at next level, right associativity) : rand_scope.
Notation "m ;; k" := (rand_bind m (fun _ => k))
  (at level 61, right associativity) : rand_scope.

(** ** Bytes as numbers *)

(** Bitwise exclusive or of two bytes. *)
Definition byte_xor (a b : byte) : byte :=
  let '(a0, (a1, (a2, (a3, (a4, (a5, (a6, a7))))))) := Byte.to_bits a in
  let '(b0, (b1, (b2, (b3, (b4, (b5, (b6, b7))))))) := Byte.to_bits b in
  Byte.of_bits (xorb a0 b0, (xorb a1 b1, (xorb a2 b2, (xorb a3 b3,
               (xorb a4 b4, (xorb a5 b5, (xorb a6 b6, xorb a7 b7))))))).

Definition xor_bytes (a b : bytes) : bytes :=
  map (fun p => byte_xor (fst p) (snd p)) (combine a b).

(** The byte whose value is [z mod 256]. *)
Definition byte_of_Z (z : Z) : byte :=
  match Byte.of_N (Z.to_N (z mod 256)) with
  | Some b => b
  | None => x00
  end.

(** One element of the iterable given to [bytes(...)]: an integer outside
    [range(256)] is refused. *)
Definition bytes_item (z : Z) : result byte :=
  if (0 <=? z) && (z <? 256)
  then Ok (byte_of_Z z)
  else Raise (ValueError "bytes must be in range(0, 256)").

(** The [n] low-order bytes of [v], most significant first. *)
Fixpoint long_to_bytes (n : nat) (v : Z) : bytes :=
  match n with
  | O => []
  | S k => long_to_bytes k (v / 256) ++ [byte_of_Z v]
  end.

(** ** Text

    A [str] is the sequence of its code points, each in [range(0x110000)];
    the surrogates [0xD800 .. 0xDFFF] are code points a [str] may hold. *)

Definition str : Type := list Z.

(** The [str] of a literal of ASCII characters. *)
Definition text (literal : string) : str :=
  map (fun b => Z.of_N (Byte.to_N b)) (list_byte_of_string literal).

(** The UTF-8 bytes of one code point; the codec refuses a surrogate. *)
Definition utf8_code_point (c : Z) : result bytes :=
  if c <? 128 then Ok [byte_of_Z c]
  else if c <? 2048 then
    Ok [byte_of_Z (192 + c / 64); byte_of_Z (128 + c mod 64)]
  else if (55296 <=? c) && (c <=? 57343) then
    Raise (UnicodeEncodeError "surrogates not allowed")
  else if c <? 65536 then
    Ok [byte_of_Z (224 + c / 4096); byte_of_Z (128 + (c / 64) mod 64);
        byte_of_Z (128 + c mod 64)]
  else
    Ok [byte_of_Z (240 + c / 262144); byte_of_Z (128 + (c / 4096) mod 64);
        byte_of_Z (128 + (c / 64) mod 64); byte_of_Z (128 + c mod 64)].

(** [s.encode('utf8')]: the code points are encoded from left to right, and
    the first surrogate met raises [UnicodeEncodeError]. *)
Fixpoint encode_utf8 (s : str) : result bytes :=
  match s with
  | [] => Ok []
  | c :: rest =>
      (encoded <- utf8_code_point c ;;
       more <- encode_utf8 rest ;;
       Ok (encoded ++ more))%result
  end.

(** ** [Crypto.Util.Counter]

    The signature is [Counter.new(nbits, prefix, suffix, initial_value=1,
    little_endian=False, allow_wraparound=False)], with an empty prefix and
    suffix by default.  The module passes [nbits] and [prefix] only, so the
    other arguments keep their defaults: the count starts at one, is written
    big-endian after the prefix on [nbits] bits, and the cipher refuses to go
    on once every value of the count has been used. *)

Record counter : Type := {
  ctr_nbits : Z;
  ctr_prefix : bytes;
  ctr_initial_value : Z
}.

Definition Counter_new (nbits : Z) (prefix : bytes) : counter :=
  {| ctr_nbits := nbits; ctr_prefix := prefix; ctr_initial_value := 1 |}.

(** The counter block of the [i]-th cipher block ([i] from zero). *)
Definition counter_block (ctr : counter) (i : Z) : bytes :=
  ctr_prefix ctr ++ long_to_bytes (Z.to_nat (ctr_nbits ctr / 8)) (ctr_initial_value ctr + i).

(** Blocks consumed by [n] bytes of data. *)
Definition blocks_of (n : Z) : Z := (n + AES_block_size - 1) / AES_block_size.

(** [n] bytes take more blocks than the count has values: the count would
    come round to a value already used. *)
Definition counter_wraps (ctr : counter) (n : Z) : bool :=
  blocks_of n >? 2 ^ ctr_nbits ctr.

(** [AES.new(key, AES.MODE_CTR, counter=counter)] *)
Record cipher : Type := {
  cipher_key : bytes;
  cipher_counter : counter
}.

Definition AES_new (key : bytes) (ctr : counter) : cipher :=
  {| cipher_key := key; cipher_counter := ctr |}.

(** ** The imported primitives

    What the module takes from the [Crypto] package, as an interface. *)

Class Crypto : Type := {
  (** State of [Crypto.Random.random], and the integer and next state that
      drawing [k] bits gives. *)
  rng : Type;
  random_bits : Z -> rng -> Z * rng;
  (** [PBKDF2(password, salt, dkLen, count, prf)] *)
  PBKDF2 : bytes -> bytes -> Z -> Z -> (bytes -> bytes -> bytes) -> bytes;
  (** [HMAC.new(key, msg, HASH).digest()] with [HASH = SHA256] *)
  HMAC_digest : bytes -> bytes -> bytes;
  (** [HASH.new(data=data).digest()] *)
  HASH_digest : bytes -> bytes;
  (** The AES block transformation under a key. *)
  AES_encrypt_block : bytes -> bytes -> bytes
}.

(** ** A concrete instance of the primitives

  Small stand-ins with the shapes of the imported primitives, used to run the
  module on concrete inputs. *)

Module Toy.

Definition checksum (l : bytes) : Z :=
  fold_left (fun acc b => 31 * acc + Z.of_N (Byte.to_N b) + 7) l 5.

Definition random_bits (k : Z) (s : Z) : Z * Z :=
  (s mod 2 ^ k, 75 * s + 74).

Definition HMAC_digest (key msg : bytes) : bytes :=
  long_to_bytes 32 (checksum key * 1000003 + checksum msg).

Definition HASH_digest (data : bytes) : bytes :=
  long_to_bytes 32 (checksum data * 8191 + 1).

Definition PBKDF2 (password salt : bytes) (dkLen count : Z)
    (prf : bytes -> bytes -> bytes) : bytes :=
  long_to_bytes (Z.to_nat dkLen) (checksum (prf password salt) * count + 3).

Definition AES_encrypt_block (key block : bytes) : bytes :=
  map (byte_xor (byte_of_Z (checksum key))) (rev block).

(** [b"hello world"] *)
Definition hello_world : bytes :=
  [x68; x65; x6c; x6c; x6f; x20; x77; x6f; x72; x6c; x64].

Definition crypto : Crypto :=
  Build_Crypto Z random_bits PBKDF2 HMAC_digest HASH_digest AES_encrypt_block.

End Toy.

Section SimpleCrypt.

Context {C : Crypto}.

(** *** Counter mode over the block transformation *)

(** Byte [pos] of the keystream of a freshly made cipher object. *)
Definition keystream_byte (c : cipher) (pos : Z) : byte :=
  nth (Z.to_nat (pos mod AES_block_size))
      (AES_encrypt_block (cipher_key c)
         (counter_block (cipher_counter c) (pos / AES_block_size)))
      x00.

(** The first [n] bytes of that keystream. *)
Definition keystream (c : cipher) (n : nat) : bytes :=
  map (fun k => keystream_byte c (Z.of_nat k)) (seq 0 n).

(** [cipher.encrypt(data)] on a freshly made cipher object *)
Definition cipher_encrypt (c : cipher) (data : bytes) : result bytes :=
  if counter_wraps (cipher_counter c) (len data)
  then Raise (OverflowError "The counter has wrapped around in CTR mode")
  else Ok (xor_bytes data (keystream c (List.length data))).

(** [cipher.decrypt(data)] on a freshly made cipher object *)
Definition cipher_decrypt (c : cipher) (data : bytes) : result bytes :=
  if counter_wraps (cipher_counter c) (len data)
  then Raise (OverflowError "The counter has wrapped around in CTR mode")
  else Ok (xor_bytes data (keystream c (List.length data))).

(** *** Private helpers *)

Definition _hash (data : bytes) : bytes := HASH_digest data.

Definition _assert_hmac (hmac hmac2 : bytes) : result unit :=
  if bytes_neq (_hash hmac) (_hash hmac2)
  then Raise (DecryptionException "Bad password or corrupt / modified data")
  else Ok tt.

Definition _expand_key (salt : bytes) (password : str) : result bytes :=
  match salt with
  | [] => Raise (ValueError "Missing salt")
  | _ :: _ =>
      match password with
      | [] => Raise (ValueError "Missing password")
      | _ :: _ =>
          (* the form of the prf below is taken from the code for PBKDF2 *)
          (encoded <- encode_utf8 password ;;
           Ok (PBKDF2 encoded salt (AES_KEY_LEN / 8) EXPANSION_COUNT
                 (fun p s => HMAC_digest p s)))%result
      end
  end.

(** [getrandbits(k)] *)
Definition getrandbits (k : Z) : rand rng Z :=
  fun s => let (z, s') := random_bits k s in (Ok z, s').

(** [bytes(getrandbits(8) for _ in range(n))], one draw per byte. *)
Fixpoint _randbytes_items (n : nat) : rand rng bytes :=
  match n with
  | O => rand_ret []
  | S k =>
      (z <- getrandbits 8 ;;
       b <- lift (bytes_item z) ;;
       rest <- _randbytes_items k ;;
       rand_ret (b :: rest))%rand
  end.

Definition _randbytes (n : Z) : rand rng bytes :=
  _randbytes_items (Z.to_nat n).

(** *** The two entry points *)

(** The cipher object [encrypt] makes (lines 38-39). *)
Definition encrypt_cipher (key salt : bytes) : cipher :=
  let counter := Counter_new HALF_BLOCK (upto salt (HALF_BLOCK / 8)) in
  AES_new key counter.

(** The cipher object [decrypt] makes (lines 64-65). *)
Definition decrypt_cipher (key salt : bytes) : cipher :=
  let counter := Counter_new HALF_BLOCK (upto salt (HALF_BLOCK / 8)) in
  AES_new key counter.

Definition encrypt (password : str) (data : bytes) : rand rng bytes :=
  (lift (_assert_encrypt_length data) ;;
   salt <- _randbytes (SALT_LEN / 8) ;;
   key <- lift (_expand_key salt password) ;;
   let cipher := encrypt_cipher key salt in
   encrypted <- lift (cipher_encrypt cipher data) ;;
   let hmac := HMAC_digest key (PREFIX ++ salt ++ encrypted) in
   rand_ret (PREFIX ++ salt ++ encrypted ++ hmac))%rand.

Definition decrypt (password : str) (data : bytes) : result bytes :=
  (_assert_decrypt_length data ;;
   _assert_prefix data ;;
   let raw := from data (len PREFIX) in
   let salt := upto raw (SALT_LEN / 8) in
   key <- _expand_key salt password ;;
   let hmac := from raw (- HASH_digest_size) in
   let hmac2 := HMAC_digest key (upto data (- HASH_digest_size)) in
   _assert_hmac hmac hmac2 ;;
   let cipher := decrypt_cipher key salt in
   cipher_decrypt cipher (slice raw (SALT_LEN / 8) (- HASH_digest_size)))%result.

(** *** The random source, read ahead

    The state of the random source after [n] draws of 8 bits, and the bytes
    those draws give. *)

Fixpoint rng_after (n : nat) (s : rng) : rng :=
  match n with
  | O => s
  | S k => rng_after k (snd (random_bits 8 s))
  end.

Fixpoint drawn_bytes (n : nat) (s : rng) : bytes :=
  match n with
  | O => []
  | S k => byte_of_Z (fst (random_bits 8 s)) :: drawn_bytes k (snd (random_bits 8 s))
  end.

End SimpleCrypt.

(** ** The module on concrete inputs *)

Definition toy_encrypt : str -> bytes -> rand Z bytes :=
  encrypt (C := Toy.crypto).

Definition toy_decrypt : str -> bytes -> result bytes :=
  decrypt (C := Toy.crypto).

(** The envelope of [b"hello world"] under ["correct horse battery staple"],
    with the random source in state 42, and the state it is left in. *)
Definition toy_envelope : bytes :=
  Eval vm_compute in
    match toy_encrypt (text "correct horse battery staple") Toy.hello_world 42 with
    | (Ok envelope, _) => envelope
    | (Raise _, _) => []
    end.

Definition toy_state : Z :=
  Eval vm_compute in snd (toy_encrypt (text "correct horse battery staple") Toy.hello_world 42).

(** The salt of the envelope of scenario 1, and a key of 32 zero bytes. *)
Definition toy_salt : bytes :=
  Eval vm_compute in upto (from toy_envelope (len PREFIX)) (SALT_LEN / 8).

Definition toy_key : bytes := repeat x00 32.

(** The envelope of the same plaintext and password with the random source
    in state 43, and the ciphertext and the tag of the envelope of
    scenario 1. *)
Definition toy_envelope_43 : bytes :=
  Eval vm_compute in
    match toy_encrypt (text "correct horse battery staple") Toy.hello_world 43 with
    | (Ok envelope, _) => envelope
    | (Raise _, _) => []
    end.

Definition toy_ciphertext : bytes :=
  Eval vm_compute in
    slice (from toy_envelope (len PREFIX)) (SALT_LEN / 8) (- HASH_digest_size).

Definition toy_tag : bytes :=
  Eval vm_compute in from toy_envelope (- HASH_digest_size).

(** The UTF-8 bytes of the password of scenario 1, and a password that is
    one lone surrogate, ['\ud800']. *)
Definition toy_password_utf8 : bytes :=
  Eval vm_compute in
    match encode_utf8 (text "correct horse battery staple") with
    | Ok encoded => encoded
    | Raise _ => []
    end.

Definition lone_surrogate : str := [55296].

(** * Properties *)

Section SimpleCryptProperties.

Context {C : Crypto}.

(** *** Contracts of the imported primitives *)

(** [getrandbits(k)] is an integer of at most [k] bits. *)
Hypothesis random_bits_range :
  forall k s, 0 <= k -> 0 <= fst (random_bits k s) < 2 ^ k.

(** An HMAC digest has the size of the digest of its hash. *)
Hypothesis HMAC_digest_size :
  forall key msg, len (HMAC_digest key msg) = HASH_digest_size.

(** ** Sequences and slices *)

Lemma len_nonneg {A : Type} (l : list A) : 0 <= len l.
Proof. unfold len. lia. Qed.

Lemma len_app {A : Type} (a b : list A) : len (a ++ b) = len a + len b.
Proof. unfold len. rewrite length_app. lia. Qed.

Lemma slice_index_inside (n i : Z) : 0 <= i <= n -> slice_index n i = i.
Proof.
  intros Hi. unfold slice_index.
  destruct (Z.ltb_spec i 0); lia.
Qed.

Lemma slice_index_from_end (n k : Z) : 0 < k <= n -> slice_index n (- k) = n - k.
Proof.
  intros Hk. unfold slice_index.
  destruct (Z.ltb_spec (- k) 0); lia.
Qed.

Lemma firstn_len_app {A : Type} (a b : list A) :
  firstn (Z.to_nat (len a)) (a ++ b) = a.
Proof.
  unfold len. rewrite Nat2Z.id, firstn_app, Nat.sub_diag, firstn_all.
  cbn [firstn]. apply app_nil_r.
Qed.

Lemma skipn_len_app {A : Type} (a b : list A) :
  skipn (Z.to_nat (len a)) (a ++ b) = b.
Proof.
  unfold len. rewrite Nat2Z.id, skipn_app, Nat.sub_diag, skipn_all.
  reflexivity.
Qed.

(** [(a + b)[:len(a)] == a] *)
Lemma upto_app {A : Type} (a b : list A) (j : Z) :
  j = len a -> upto (a ++ b) j = a.
Proof.
  intros ->. unfold upto.
  rewrite slice_index_inside.
  - apply firstn_len_app.
  - rewrite len_app. pose proof (len_nonneg a). pose proof (len_nonneg b). lia.
Qed.

(** [(a + b)[len(a):] == b] *)
Lemma from_app {A : Type} (a b : list A) (i : Z) :
  i = len a -> from (a ++ b) i = b.
Proof.
  intros ->. unfold from.
  rewrite slice_index_inside.
  - apply skipn_len_app.
  - rewrite len_app. pose proof (len_nonneg a). pose proof (len_nonneg b). lia.
Qed.

(** [(a + b)[:-len(b)] == a] for a non-empty [b] *)
Lemma upto_from_end {A : Type} (a b : list A) (k : Z) :
  k = len b -> 0 < k -> upto (a ++ b) (- k) = a.
Proof.
  intros -> Hb. unfold upto.
  pose proof (len_nonneg a).
  rewrite slice_index_from_end by (rewrite len_app; lia).
  replace (len (a ++ b) - len b) with (len a) by (rewrite len_app; lia).
  apply firstn_len_app.
Qed.

(** [(a + b)[-len(b):] == b] for a non-empty [b] *)
Lemma from_from_end {A : Type} (a b : list A) (k : Z) :
  k = len b -> 0 < k -> from (a ++ b) (- k) = b.
Proof.
  intros -> Hb. unfold from.
  pose proof (len_nonneg a).
  rewrite slice_index_from_end by (rewrite len_app; lia).
  replace (len (a ++ b) - len b) with (len a) by (rewrite len_app; lia).
  apply skipn_len_app.
Qed.

(** [(a + b + c)[len(a):-len(c)] == b] for a non-empty [c] *)
Lemma slice_middle {A : Type} (a b c : list A) (i k : Z) :
  i = len a -> k = len c -> 0 < k -> slice (a ++ b ++ c) i (- k) = b.
Proof.
  intros -> -> Hc. unfold slice.
  pose proof (len_nonneg a). pose proof (len_nonneg b).
  assert (Hlen : len (a ++ b ++ c) = len a + len b + len c)
    by (rewrite !len_app; lia).
  cbv zeta.
  rewrite slice_index_from_end by lia.
  rewrite slice_index_inside by lia.
  rewrite skipn_len_app.
  replace (len (a ++ b ++ c) - len c - len a) with (len b) by lia.
  apply firstn_len_app.
Qed.

(** A slice [l[:j]] with [0 <= j <= len(l)] has [j] elements. *)
Lemma len_upto {A : Type} (l : list A) (j : Z) :
  0 <= j <= len l -> len (upto l j) = j.
Proof.
  intros Hj. unfold upto. rewrite slice_index_inside by assumption.
  unfold len in *. rewrite length_firstn. lia.
Qed.

Lemma len_from {A : Type} (l : list A) (i : Z) :
  0 <= i <= len l -> len (from l i) = len l - i.
Proof.
  intros Hi. unfold from. rewrite slice_index_inside by assumption.
  unfold len in *. rewrite length_skipn. lia.
Qed.

Lemma bytes_neq_false (a b : bytes) : bytes_neq a b = false <-> a = b.
Proof.
  unfold bytes_neq. destruct (bytes_eq_dec a b); split; congruence.
Qed.

Lemma bytes_neq_true (a b : bytes) : bytes_neq a b = true <-> a <> b.
Proof.
  unfold bytes_neq. destruct (bytes_eq_dec a b); split; congruence.
Qed.

(** ** Exclusive or and the keystream *)

Lemma byte_xor_cancel (a b : byte) : byte_xor (byte_xor a b) b = a.
Proof.
  unfold byte_xor.
  pose proof (Byte.of_bits_to_bits a) as Ha.
  remember (Byte.to_bits a) as ta eqn:Eta.
  remember (Byte.to_bits b) as tb eqn:Etb.
  destruct ta as [a0 [a1 [a2 [a3 [a4 [a5 [a6 a7]]]]]]].
  destruct tb as [b0 [b1 [b2 [b3 [b4 [b5 [b6 b7]]]]]]].
  rewrite Byte.to_bits_of_bits.
  rewrite <- Ha.
  rewrite !xorb_assoc, !xorb_nilpotent, !xorb_false_r.
  reflexivity.
Qed.

Lemma xor_bytes_length (d ks : bytes) :
  List.length ks = List.length d -> List.length (xor_bytes d ks) = List.length d.
Proof.
  intros Hl. unfold xor_bytes.
  rewrite length_map, length_combine. lia.
Qed.

Lemma xor_bytes_cancel (d : bytes) :
  forall ks, List.length ks = List.length d -> xor_bytes (xor_bytes d ks) ks = d.
Proof.
  induction d as [| x d IH]; intros [| k ks] Hl; try discriminate.
  - reflexivity.
  - unfold xor_bytes in *. cbn [combine map fst snd].
    rewrite byte_xor_cancel. f_equal.
    apply IH. cbn [List.length] in Hl. lia.
Qed.

Lemma keystream_length (c : cipher) (n : nat) : List.length (keystream c n) = n.
Proof. unfold keystream. now rewrite length_map, length_seq. Qed.

(** Counter mode keeps the length of its input. *)
Lemma cipher_encrypt_length (c : cipher) (data out : bytes) :
  cipher_encrypt c data = Ok out -> List.length out = List.length data.
Proof.
  unfold cipher_encrypt.
  destruct (counter_wraps (cipher_counter c) (len data)); [discriminate |].
  intros [= <-]. apply xor_bytes_length, keystream_length.
Qed.

(** Decrypting with a cipher object made like the encrypting one undoes the
    encryption. *)
Lemma cipher_decrypt_encrypt (c : cipher) (data out : bytes) :
  cipher_encrypt c data = Ok out -> cipher_decrypt c out = Ok data.
Proof.
  intros He. pose proof (cipher_encrypt_length _ _ _ He) as Hl.
  revert He. unfold cipher_encrypt, cipher_decrypt, len. rewrite Hl.
  destruct (counter_wraps (cipher_counter c) (Z.of_nat (List.length data)));
    [discriminate |].
  intros [= <-]. rewrite <- Hl at 1. rewrite Hl. f_equal.
  apply xor_bytes_cancel, keystream_length.
Qed.

Lemma blocks_of_bound (n : Z) :
  0 <= n <= 2 ^ HALF_BLOCK -> 0 <= blocks_of n <= 2 ^ 60.
Proof.
  intros Hn. unfold blocks_of.
  change AES_block_size with 16 in *.
  change (2 ^ HALF_BLOCK) with (16 * 2 ^ 60) in Hn.
  split.
  - apply Z.div_pos; lia.
  - apply Z.lt_succ_r, Z.div_lt_upper_bound; lia.
Qed.

(** Within the length bound of [encrypt] the 64-bit count never runs out of
    values. *)
Lemma counter_wraps_in_bound (key salt : bytes) (n : Z) :
  0 <= n <= 2 ^ HALF_BLOCK ->
  counter_wraps (cipher_counter (encrypt_cipher key salt)) n = false.
Proof.
  intros Hn. pose proof (blocks_of_bound n Hn) as Hb.
  unfold counter_wraps, encrypt_cipher, Counter_new, AES_new.
  cbn [cipher_counter ctr_nbits].
  change (2 ^ HALF_BLOCK) with (16 * 2 ^ 60).
  destruct (Z.gtb_spec (blocks_of n) (16 * 2 ^ 60)); [lia | reflexivity].
Qed.

Lemma cipher_encrypt_in_bound (key salt data : bytes) :
  len data <= 2 ^ HALF_BLOCK ->
  cipher_encrypt (encrypt_cipher key salt) data =
    Ok (xor_bytes data (keystream (encrypt_cipher key salt) (List.length data))).
Proof.
  intros Hn. unfold cipher_encrypt.
  rewrite counter_wraps_in_bound; [reflexivity |].
  pose proof (len_nonneg data). lia.
Qed.

(** ** Drawing the salt *)

Lemma bytes_item_in_range (z : Z) : 0 <= z < 256 -> bytes_item z = Ok (byte_of_Z z).
Proof.
  intros Hz. unfold bytes_item.
  destruct (Z.leb_spec 0 z); [| lia].
  destruct (Z.ltb_spec z 256); [reflexivity | lia].
Qed.

Lemma _randbytes_items_step (n : nat) (s : rng) :
  _randbytes_items (S n) s =
    match bytes_item (fst (random_bits 8 s)) with
    | Raise e => (Raise e, snd (random_bits 8 s))
    | Ok b =>
        match _randbytes_items n (snd (random_bits 8 s)) with
        | (Ok rest, s') => (Ok (b :: rest), s')
        | (Raise e, s') => (Raise e, s')
        end
    end.
Proof.
  cbn [_randbytes_items]. unfold rand_bind, getrandbits, lift, rand_ret.
  destruct (random_bits 8 s) as [z s1]. cbn [fst snd].
  destruct (bytes_item z); [| reflexivity].
  destruct (_randbytes_items n s1) as [[rest | e] s2]; reflexivity.
Qed.

(** What was drawn without an exception has the length asked for. *)
Lemma _randbytes_items_length (n : nat) :
  forall s salt s', _randbytes_items n s = (Ok salt, s') -> List.length salt = n.
Proof.
  induction n as [| n IH]; intros s salt s' H.
  - cbn in H. unfold rand_ret in H. now inversion H.
  - rewrite _randbytes_items_step in H.
    destruct (bytes_item (fst (random_bits 8 s))) as [b | e]; [| discriminate].
    destruct (_randbytes_items n (snd (random_bits 8 s))) as [[rest | e] s2] eqn:E;
      [| discriminate].
    inversion H; subst. cbn [List.length]. f_equal. eapply IH; eassumption.
Qed.

(** With a random source that keeps its contract, drawing never fails. *)
Lemma _randbytes_items_total (n : nat) :
  forall s, exists salt s', _randbytes_items n s = (Ok salt, s').
Proof using random_bits_range.
  induction n as [| n IH]; intros s.
  - exists [], s. reflexivity.
  - rewrite _randbytes_items_step.
    rewrite bytes_item_in_range
      by (change 256 with (2 ^ 8); apply random_bits_range; lia).
    destruct (IH (snd (random_bits 8 s))) as (rest & s' & E).
    rewrite E. eauto.
Qed.

Lemma _randbytes_len (n : Z) (s s' : rng) (salt : bytes) :
  0 <= n -> _randbytes n s = (Ok salt, s') -> len salt = n.
Proof.
  intros Hn H. unfold _randbytes in H.
  apply _randbytes_items_length in H. unfold len. lia.
Qed.

Lemma utf8_code_point_exn (c : Z) (e : exn) :
  utf8_code_point c = Raise e -> e = UnicodeEncodeError "surrogates not allowed".
Proof.
  unfold utf8_code_point.
  destruct (c <? 128); [discriminate |].
  destruct (c <? 2048); [discriminate |].
  destruct ((55296 <=? c) && (c <=? 57343)); [now intros [= <-] |].
  destruct (c <? 65536); discriminate.
Qed.

(** The only exception encoding can end in is that of a surrogate. *)
Lemma encode_utf8_exn (s : str) (e : exn) :
  encode_utf8 s = Raise e -> e = UnicodeEncodeError "surrogates not allowed".
Proof.
  induction s as [| c rest IH]; cbn [encode_utf8]; [discriminate |].
  destruct (utf8_code_point c) as [encoded | e0] eqn:Ec; cbn [result_bind].
  - destruct (encode_utf8 rest) as [more | e1]; cbn [result_bind]; [discriminate |].
    intros [= <-]. now apply IH.
  - intros [= <-]. now apply (utf8_code_point_exn c).
Qed.

Lemma _expand_key_nonempty (salt : bytes) (password : str) (encoded : bytes) :
  salt <> [] -> password <> [] ->
  encode_utf8 password = Ok encoded ->
  _expand_key salt password =
    Ok (PBKDF2 encoded salt (AES_KEY_LEN / 8) EXPANSION_COUNT
          (fun p s => HMAC_digest p s)).
Proof.
  intros Hs Hp He. unfold _expand_key. destruct salt; [congruence |].
  destruct password; [congruence |].
  rewrite He. reflexivity.
Qed.

Lemma _expand_key_unencodable (salt : bytes) (password : str) (e : exn) :
  salt <> [] -> password <> [] ->
  encode_utf8 password = Raise e ->
  _expand_key salt password = Raise (UnicodeEncodeError "surrogates not allowed").
Proof.
  intros Hs Hp He. unfold _expand_key. destruct salt; [congruence |].
  destruct password; [congruence |].
  rewrite He. cbn [result_bind]. f_equal. now apply encode_utf8_exn in He.
Qed.

Lemma _expand_key_empty_password (salt : bytes) :
  salt <> [] -> _expand_key salt [] = Raise (ValueError "Missing password").
Proof.
  intros Hs. unfold _expand_key. destruct salt; [congruence | reflexivity].
Qed.

Lemma nonempty_of_len {A : Type} (l : list A) : 0 < len l -> l <> [].
Proof. intros H ->. unfold len in H. cbn in H. lia. Qed.

(** ** The entry points, one step at a time *)

Lemma encrypt_unfold (password : str) (data : bytes) (s : rng) :
  encrypt password data s =
    match _assert_encrypt_length data with
    | Raise e => (Raise e, s)
    | Ok _ =>
        match _randbytes (SALT_LEN / 8) s with
        | (Raise e, s1) => (Raise e, s1)
        | (Ok salt, s1) =>
            match _expand_key salt password with
            | Raise e => (Raise e, s1)
            | Ok key =>
                match cipher_encrypt (encrypt_cipher key salt) data with
                | Raise e => (Raise e, s1)
                | Ok encrypted =>
                    (Ok (PREFIX ++ salt ++ encrypted
                           ++ HMAC_digest key (PREFIX ++ salt ++ encrypted)), s1)
                end
            end
        end
    end.
Proof.
  unfold encrypt, rand_bind, lift, rand_ret.
  destruct (_assert_encrypt_length data); [| reflexivity].
  destruct (_randbytes (SALT_LEN / 8) s) as [[salt | e] s1]; [| reflexivity].
  destruct (_expand_key salt password); [| reflexivity].
  destruct (cipher_encrypt _ data); reflexivity.
Qed.

Lemma decrypt_unfold (password : str) (data : bytes) :
  decrypt password data =
    match _assert_decrypt_length data with
    | Raise e => Raise e
    | Ok _ =>
        match _assert_prefix data with
        | Raise e => Raise e
        | Ok _ =>
            let raw := from data (len PREFIX) in
            let salt := upto raw (SALT_LEN / 8) in
            match _expand_key salt password with
            | Raise e => Raise e
            | Ok key =>
                match _assert_hmac (from raw (- HASH_digest_size))
                        (HMAC_digest key (upto data (- HASH_digest_size))) with
                | Raise e => Raise e
                | Ok _ =>
                    cipher_decrypt (decrypt_cipher key salt)
                      (slice raw (SALT_LEN / 8) (- HASH_digest_size))
                end
            end
        end
    end.
Proof. reflexivity. Qed.

Lemma _assert_encrypt_length_Ok (data : bytes) :
  _assert_encrypt_length data = Ok tt <-> len data <= 2 ^ HALF_BLOCK.
Proof.
  unfold _assert_encrypt_length.
  destruct (Z.gtb_spec (len data) (2 ^ HALF_BLOCK)); split;
    try discriminate; try reflexivity; lia.
Qed.

Lemma _assert_encrypt_length_Raise (data : bytes) :
  _assert_encrypt_length data = Raise (EncryptionException "Message too long")
  <-> 2 ^ HALF_BLOCK < len data.
Proof.
  unfold _assert_encrypt_length.
  destruct (Z.gtb_spec (len data) (2 ^ HALF_BLOCK)); split;
    try discriminate; try reflexivity; lia.
Qed.

Lemma _assert_decrypt_length_Ok (data : bytes) :
  _assert_decrypt_length data = Ok tt <-> 52 <= len data.
Proof.
  unfold _assert_decrypt_length.
  change (len PREFIX + SALT_LEN / 8 + HASH_digest_size) with 52.
  destruct (Z.ltb_spec (len data) 52); split;
    try discriminate; try reflexivity; lia.
Qed.

Lemma _assert_prefix_Ok (data : bytes) :
  _assert_prefix data = Ok tt <-> upto data (len PREFIX) = PREFIX.
Proof.
  unfold _assert_prefix.
  destruct (bytes_neq (upto data (len PREFIX)) PREFIX) eqn:E.
  - apply bytes_neq_true in E. split; [discriminate | congruence].
  - apply bytes_neq_false in E. split; [intros _; exact E | reflexivity].
Qed.

Lemma _assert_hmac_Ok (hmac hmac2 : bytes) :
  _assert_hmac hmac hmac2 = Ok tt <-> _hash hmac = _hash hmac2.
Proof.
  unfold _assert_hmac.
  destruct (bytes_neq (_hash hmac) (_hash hmac2)) eqn:E.
  - apply bytes_neq_true in E. split; [discriminate | congruence].
  - apply bytes_neq_false in E. split; [intros _; exact E | reflexivity].
Qed.

(** ** The envelope and its slices *)

Lemma len_PREFIX : len PREFIX = 4.
Proof. reflexivity. Qed.

(** The module-level assertion [HALF_BLOCK <= SALT_LEN]: the nonce is a
    subset of the salt. *)
Lemma HALF_BLOCK_le_SALT_LEN : HALF_BLOCK <= SALT_LEN.
Proof. vm_compute. discriminate. Qed.

(** How [decrypt] cuts up [PREFIX + salt + ct + tag] when the salt and the tag
    have their fixed sizes. *)
Lemma envelope_slices (salt ct tag : bytes) :
  len salt = SALT_LEN / 8 ->
  len tag = HASH_digest_size ->
  let data := PREFIX ++ salt ++ ct ++ tag in
  let raw := from data (len PREFIX) in
  upto data (len PREFIX) = PREFIX /\
  upto raw (SALT_LEN / 8) = salt /\
  from raw (- HASH_digest_size) = tag /\
  upto data (- HASH_digest_size) = PREFIX ++ salt ++ ct /\
  slice raw (SALT_LEN / 8) (- HASH_digest_size) = ct /\
  len data = 52 + len ct.
Proof.
  intros Hs Ht data raw.
  assert (Hraw : raw = salt ++ ct ++ tag)
    by (subst raw data; now apply from_app).
  assert (Hpos : 0 < HASH_digest_size) by reflexivity.
  repeat split.
  - subst data. now apply upto_app.
  - rewrite Hraw. now apply upto_app.
  - rewrite Hraw, app_assoc. now apply from_from_end.
  - subst data. rewrite 2!app_assoc. rewrite <- (app_assoc PREFIX).
    now apply upto_from_end.
  - rewrite Hraw. now apply slice_middle.
  - subst data. rewrite !len_app, Hs, Ht, len_PREFIX.
    change (SALT_LEN / 8) with 16. change HASH_digest_size with 32. lia.
Qed.

(** [decrypt] on an envelope laid out by [encrypt] with the tag of the right
    key goes through all three checks and reaches the cipher. *)
Lemma decrypt_envelope (password : str) (salt key ct : bytes) :
  len salt = SALT_LEN / 8 ->
  _expand_key salt password = Ok key ->
  decrypt password
    (PREFIX ++ salt ++ ct ++ HMAC_digest key (PREFIX ++ salt ++ ct))
  = cipher_decrypt (decrypt_cipher key salt) ct.
Proof using HMAC_digest_size.
  intros Hs Hk.
  destruct (envelope_slices salt ct (HMAC_digest key (PREFIX ++ salt ++ ct)) Hs
              (HMAC_digest_size _ _))
    as (Hp & Hsalt & Htag & Hmsg & Hct & Hlen).
  rewrite decrypt_unfold. cbv zeta.
  replace (_assert_decrypt_length _) with (Ok tt)
    by (symmetry; apply _assert_decrypt_length_Ok; rewrite Hlen;
        pose proof (len_nonneg ct); lia).
  replace (_assert_prefix _) with (Ok tt)
    by (symmetry; now apply _assert_prefix_Ok).
  rewrite Hsalt, Hk, Htag, Hmsg, Hct.
  replace (_assert_hmac _ _) with (Ok tt)
    by (symmetry; now apply _assert_hmac_Ok).
  reflexivity.
Qed.

(** What a successful [encrypt] went through. *)
Lemma encrypt_Ok_inv (password : str) (data envelope : bytes) (s s' : rng) :
  encrypt password data s = (Ok envelope, s') ->
  exists salt key encrypted,
    len data <= 2 ^ HALF_BLOCK /\
    _randbytes (SALT_LEN / 8) s = (Ok salt, s') /\
    _expand_key salt password = Ok key /\
    cipher_encrypt (encrypt_cipher key salt) data = Ok encrypted /\
    envelope = PREFIX ++ salt ++ encrypted
                 ++ HMAC_digest key (PREFIX ++ salt ++ encrypted).
Proof.
  rewrite encrypt_unfold.
  destruct (_assert_encrypt_length data) as [[] | e] eqn:Ea; [| discriminate].
  destruct (_randbytes (SALT_LEN / 8) s) as [[salt | e] s1] eqn:Er; [| discriminate].
  destruct (_expand_key salt password) as [key | e] eqn:Ek; [| discriminate].
  destruct (cipher_encrypt (encrypt_cipher key salt) data) as [ct | e] eqn:Ec;
    [| discriminate].
  intros [= <- <-]. exists salt, key, ct.
  apply _assert_encrypt_length_Ok in Ea. auto.
Qed.

(** With a non-empty password that encodes and a plaintext the length check
    lets through, [encrypt] returns an envelope. *)
Lemma encrypt_in_bound (password : str) (encoded data : bytes) (s : rng) :
  password <> [] ->
  encode_utf8 password = Ok encoded ->
  len data <= 2 ^ HALF_BLOCK ->
  exists salt key s',
    _randbytes (SALT_LEN / 8) s = (Ok salt, s') /\
    len salt = SALT_LEN / 8 /\
    _expand_key salt password = Ok key /\
    encrypt password data s =
      (Ok (PREFIX ++ salt
             ++ xor_bytes data (keystream (encrypt_cipher key salt) (List.length data))
             ++ HMAC_digest key
                  (PREFIX ++ salt
                     ++ xor_bytes data
                          (keystream (encrypt_cipher key salt) (List.length data)))),
       s').
Proof using random_bits_range.
  intros Hp Henc Hn.
  destruct (_randbytes_items_total (Z.to_nat (SALT_LEN / 8)) s) as (salt & s' & Er).
  fold (_randbytes (SALT_LEN / 8)) in Er.
  assert (Hs : len salt = SALT_LEN / 8)
    by (eapply _randbytes_len; [| eassumption]; discriminate).
  assert (Hne : salt <> [])
    by (apply nonempty_of_len; rewrite Hs; reflexivity).
  exists salt. eexists. exists s'. repeat split; try eassumption.
  - apply (_expand_key_nonempty _ _ encoded); assumption.
  - rewrite encrypt_unfold.
    replace (_assert_encrypt_length data) with (Ok tt)
      by (symmetry; now apply _assert_encrypt_length_Ok).
    rewrite Er, (_expand_key_nonempty _ _ _ Hne Hp Henc).
    rewrite (cipher_encrypt_in_bound _ _ _ Hn). reflexivity.
Qed.

(** ** Outcomes, case by case *)

Lemma drawn_bytes_length (n : nat) :
  forall s, List.length (drawn_bytes n s) = n.
Proof.
  induction n as [| n IH]; intros s; cbn [drawn_bytes List.length];
    [reflexivity | now rewrite IH].
Qed.

Lemma _randbytes_items_draws (n : nat) :
  forall s, _randbytes_items n s = (Ok (drawn_bytes n s), rng_after n s).
Proof using random_bits_range.
  induction n as [| n IH]; intros s.
  - reflexivity.
  - rewrite _randbytes_items_step.
    rewrite bytes_item_in_range
      by (change 256 with (2 ^ 8); apply random_bits_range; lia).
    rewrite IH. reflexivity.
Qed.

Lemma bytes_item_exn_msg (z : Z) (e : exn) :
  bytes_item z = Raise e -> e = ValueError "bytes must be in range(0, 256)".
Proof.
  unfold bytes_item. destruct ((0 <=? z) && (z <? 256)); [discriminate |].
  now intros [= <-].
Qed.

Lemma _randbytes_items_exn_msg (n : nat) :
  forall s e s',
    _randbytes_items n s = (Raise e, s') ->
    e = ValueError "bytes must be in range(0, 256)".
Proof.
  induction n as [| n IH]; intros s e s' H.
  - cbn in H. unfold rand_ret in H. discriminate.
  - rewrite _randbytes_items_step in H.
    destruct (bytes_item (fst (random_bits 8 s))) as [b | e0] eqn:Eb.
    + destruct (_randbytes_items n (snd (random_bits 8 s))) as [[rest | e1] s2] eqn:E;
        [discriminate |].
      inversion H; subst. eapply IH; eassumption.
    + inversion H; subst. eapply bytes_item_exn_msg; eassumption.
Qed.

Lemma cipher_decrypt_exn (c : cipher) (data : bytes) (e : exn) :
  cipher_decrypt c data = Raise e -> exists msg, e = OverflowError msg.
Proof.
  unfold cipher_decrypt.
  destruct (counter_wraps (cipher_counter c) (len data)); [| discriminate].
  intros [= <-]. eauto.
Qed.

Lemma cipher_decrypt_length (c : cipher) (data out : bytes) :
  cipher_decrypt c data = Ok out -> List.length out = List.length data.
Proof.
  unfold cipher_decrypt.
  destruct (counter_wraps (cipher_counter c) (len data)); [discriminate |].
  intros [= <-]. apply xor_bytes_length, keystream_length.
Qed.

Lemma cipher_decrypt_in_bound (key salt data : bytes) :
  len data <= 2 ^ HALF_BLOCK ->
  cipher_decrypt (decrypt_cipher key salt) data =
    Ok (xor_bytes data (keystream (decrypt_cipher key salt) (List.length data))).
Proof.
  intros Hn. unfold cipher_decrypt.
  change (decrypt_cipher key salt) with (encrypt_cipher key salt).
  rewrite counter_wraps_in_bound; [reflexivity |].
  pose proof (len_nonneg data). lia.
Qed.

(** [l[i:-k]] when both cuts fall inside [l]. *)
Lemma len_slice_from_end {A : Type} (l : list A) (i k : Z) :
  0 <= i -> 0 < k -> i + k <= len l -> len (slice l i (- k)) = len l - i - k.
Proof.
  intros Hi Hk Hl. unfold slice. cbv zeta.
  rewrite slice_index_from_end by lia.
  rewrite slice_index_inside by lia.
  unfold len in *. rewrite length_firstn, length_skipn. lia.
Qed.

(** A plaintext the interpreter can hold is within the bound of the length
    check. *)
Lemma sys_maxsize_in_bound : sys_maxsize < 2 ^ HALF_BLOCK.
Proof. reflexivity. Qed.

(** The outcomes of [encrypt], in the order the code reaches them. *)
Lemma encrypt_cases (password : str) (data : bytes) (s : rng) :
  (2 ^ HALF_BLOCK < len data /\
   encrypt password data s = (Raise (EncryptionException "Message too long"), s)) \/
  (len data <= 2 ^ HALF_BLOCK /\
   exists s1,
     _randbytes (SALT_LEN / 8) s
       = (Raise (ValueError "bytes must be in range(0, 256)"), s1) /\
     encrypt password data s
       = (Raise (ValueError "bytes must be in range(0, 256)"), s1)) \/
  (len data <= 2 ^ HALF_BLOCK /\
   exists salt s1,
     _randbytes (SALT_LEN / 8) s = (Ok salt, s1) /\
     password = [] /\
     encrypt password data s = (Raise (ValueError "Missing password"), s1)) \/
  (len data <= 2 ^ HALF_BLOCK /\
   exists salt s1 e,
     _randbytes (SALT_LEN / 8) s = (Ok salt, s1) /\
     password <> [] /\
     encode_utf8 password = Raise e /\
     encrypt password data s
       = (Raise (UnicodeEncodeError "surrogates not allowed"), s1)) \/
  (len data <= 2 ^ HALF_BLOCK /\
   exists salt s1 key envelope,
     _randbytes (SALT_LEN / 8) s = (Ok salt, s1) /\
     password <> [] /\
     _expand_key salt password = Ok key /\
     encrypt password data s = (Ok envelope, s1)).
Proof.
  rewrite encrypt_unfold.
  destruct (Z.le_gt_cases (len data) (2 ^ HALF_BLOCK)) as [Hl | Hl].
  2:{ left. split; [exact Hl |].
      now rewrite (proj2 (_assert_encrypt_length_Raise data) Hl). }
  right. rewrite (proj2 (_assert_encrypt_length_Ok data) Hl).
  destruct (_randbytes (SALT_LEN / 8) s) as [[salt | e] s1] eqn:Er.
  2:{ left. split; [exact Hl |]. exists s1.
      apply _randbytes_items_exn_msg in Er. subst e. auto. }
  right.
  assert (Hne : salt <> []).
  { apply nonempty_of_len.
    rewrite (_randbytes_len (SALT_LEN / 8) s s1 salt); [reflexivity | discriminate | exact Er]. }
  destruct password as [| c rest] eqn:Epw.
  { left. split; [exact Hl |]. exists salt, s1.
    rewrite (_expand_key_empty_password _ Hne). auto. }
  right. rewrite <- Epw.
  assert (Hp : password <> []) by (subst password; discriminate).
  clear Epw.
  destruct (encode_utf8 password) as [encoded | e] eqn:Ee.
  - right. split; [exact Hl |].
    rewrite (_expand_key_nonempty _ _ _ Hne Hp Ee).
    rewrite (cipher_encrypt_in_bound _ _ _ Hl).
    exists salt, s1. do 2 eexists.
    split; [reflexivity |]. split; [exact Hp |].
    split; [exact (_expand_key_nonempty _ _ _ Hne Hp Ee) | reflexivity].
  - left. split; [exact Hl |]. exists salt, s1, e.
    rewrite (_expand_key_unencodable _ _ _ Hne Hp Ee). auto.
Qed.

(** The outcomes of [decrypt], in the order the code reaches them. *)
Lemma decrypt_cases (password : str) (data : bytes) :
  let raw := from data (len PREFIX) in
  let salt := upto raw (SALT_LEN / 8) in
  (len data < 52 /\
   decrypt password data = Raise (DecryptionException "Missing data")) \/
  (52 <= len data /\ upto data (len PREFIX) <> PREFIX /\
   decrypt password data = Raise (DecryptionException "Bad data format")) \/
  (52 <= len data /\ upto data (len PREFIX) = PREFIX /\ password = [] /\
   decrypt password data = Raise (ValueError "Missing password")) \/
  (52 <= len data /\ upto data (len PREFIX) = PREFIX /\ password <> [] /\
   (exists e, encode_utf8 password = Raise e) /\
   decrypt password data = Raise (UnicodeEncodeError "surrogates not allowed")) \/
  (52 <= len data /\ upto data (len PREFIX) = PREFIX /\ password <> [] /\
   exists key,
     _expand_key salt password = Ok key /\
     HASH_digest (from raw (- HASH_digest_size))
       <> HASH_digest (HMAC_digest key (upto data (- HASH_digest_size))) /\
     decrypt password data
       = Raise (DecryptionException "Bad password or corrupt / modified data")) \/
  (52 <= len data /\ upto data (len PREFIX) = PREFIX /\ password <> [] /\
   exists key,
     _expand_key salt password = Ok key /\
     HASH_digest (from raw (- HASH_digest_size))
       = HASH_digest (HMAC_digest key (upto data (- HASH_digest_size))) /\
     decrypt password data
       = cipher_decrypt (decrypt_cipher key salt)
           (slice raw (SALT_LEN / 8) (- HASH_digest_size))).
Proof.
  intros raw salt. rewrite decrypt_unfold. cbv zeta. fold raw. fold salt.
  destruct (Z.lt_ge_cases (len data) 52) as [Hl | Hl].
  { left. split; [exact Hl |]. unfold _assert_decrypt_length.
    change (len PREFIX + SALT_LEN / 8 + HASH_digest_size) with 52.
    destruct (Z.ltb_spec (len data) 52); [reflexivity | lia]. }
  right. rewrite (proj2 (_assert_decrypt_length_Ok data) Hl).
  destruct (bytes_eq_dec (upto data (len PREFIX)) PREFIX) as [Hp | Hp].
  2:{ left. repeat split; try assumption. unfold _assert_prefix.
      now rewrite (proj2 (bytes_neq_true _ _) Hp). }
  right. rewrite (proj2 (_assert_prefix_Ok data) Hp).
  assert (Hne : salt <> []).
  { apply nonempty_of_len. subst salt raw.
    rewrite len_upto; [reflexivity |].
    rewrite len_from; rewrite len_PREFIX; [| lia].
    change (SALT_LEN / 8) with 16. lia. }
  destruct password as [| c rest] eqn:Epw.
  { left. repeat split; try assumption.
    now rewrite (_expand_key_empty_password _ Hne). }
  right. rewrite <- Epw.
  assert (Hpw : password <> []) by (subst password; discriminate).
  clear Epw.
  destruct (encode_utf8 password) as [encoded | e] eqn:Ee.
  2:{ left. repeat split; try assumption; [eauto |].
      now rewrite (_expand_key_unencodable _ _ _ Hne Hpw Ee). }
  right. rewrite (_expand_key_nonempty _ _ _ Hne Hpw Ee).
  set (key := PBKDF2 _ _ _ _ _).
  destruct (bytes_eq_dec (HASH_digest (from raw (- HASH_digest_size)))
              (HASH_digest (HMAC_digest key (upto data (- HASH_digest_size)))))
    as [Hh | Hh].
  - right. repeat split; try assumption. exists key.
    rewrite (proj2 (_assert_hmac_Ok _ _) Hh). auto.
  - left. repeat split; try assumption. exists key.
    unfold _assert_hmac, _hash. rewrite (proj2 (bytes_neq_true _ _) Hh). auto.
Qed.

(** How [decrypt] treats [PREFIX + salt + ct + tag] for any tag of the right
    size. *)
Lemma decrypt_fields (password : str) (salt key ct tag : bytes) :
  len salt = SALT_LEN / 8 ->
  len tag = HASH_digest_size ->
  _expand_key salt password = Ok key ->
  decrypt password (PREFIX ++ salt ++ ct ++ tag) =
    if bytes_neq (HASH_digest tag)
         (HASH_digest (HMAC_digest key (PREFIX ++ salt ++ ct)))
    then Raise (DecryptionException "Bad password or corrupt / modified data")
    else cipher_decrypt (decrypt_cipher key salt) ct.
Proof.
  intros Hs Ht Hk.
  destruct (envelope_slices salt ct tag Hs Ht)
    as (Hp & Hsalt & Htag & Hmsg & Hct & Hlen).
  rewrite decrypt_unfold. cbv zeta.
  replace (_assert_decrypt_length _) with (Ok tt)
    by (symmetry; apply _assert_decrypt_length_Ok; rewrite Hlen;
        pose proof (len_nonneg ct); lia).
  replace (_assert_prefix _) with (Ok tt)
    by (symmetry; now apply _assert_prefix_Ok).
  rewrite Hsalt, Hk, Htag, Hmsg, Hct.
  unfold _assert_hmac, _hash.
  destruct (bytes_neq _ _); reflexivity.
Qed.


(** Once length, prefix and key derivation have passed, the digests of the
    two tags decide what [decrypt] does. *)
Lemma decrypt_tag_check (password : str) (data key : bytes) :
  let raw := from data (len PREFIX) in
  let salt := upto raw (SALT_LEN / 8) in
  52 <= len data ->
  upto data (len PREFIX) = PREFIX ->
  _expand_key salt password = Ok key ->
  decrypt password data =
    if bytes_neq (HASH_digest (from raw (- HASH_digest_size)))
         (HASH_digest (HMAC_digest key (upto data (- HASH_digest_size))))
    then Raise (DecryptionException "Bad password or corrupt / modified data")
    else cipher_decrypt (decrypt_cipher key salt)
           (slice raw (SALT_LEN / 8) (- HASH_digest_size)).
Proof.
  intros raw salt Hl Hp Hk. rewrite decrypt_unfold. cbv zeta. fold raw. fold salt.
  rewrite (proj2 (_assert_decrypt_length_Ok data) Hl).
  rewrite (proj2 (_assert_prefix_Ok data) Hp).
  rewrite Hk. unfold _assert_hmac, _hash.
  destruct (bytes_neq _ _); reflexivity.
Qed.

(** ** Properties of [encrypt] and [decrypt] *)

(** C1 (round trip), as the code has it.  For every non-empty password that
    encodes as UTF-8, that is, holds no lone surrogate, and every plaintext
    whose length is below the size bound [2^HALF_BLOCK], whatever state the
    random source is in (so whatever salt is drawn), [encrypt] returns an
    envelope and [decrypt] with the same password gives the plaintext
    back. *)
Theorem decrypt_encrypt_roundtrip (password : str) (encoded m : bytes) (s : rng) :
  password <> [] ->
  encode_utf8 password = Ok encoded ->
  len m < 2 ^ HALF_BLOCK ->
  exists envelope s',
    encrypt password m s = (Ok envelope, s') /\
    decrypt password envelope = Ok m.
Proof using random_bits_range HMAC_digest_size.
  intros Hp Henc Hm.
  destruct (encrypt_in_bound password encoded m s Hp Henc)
    as (salt & key & s' & _ & Hs & Hk & He); [lia |].
  eexists. exists s'. split; [exact He |].
  rewrite (decrypt_envelope _ _ _ _ Hs Hk).
  apply cipher_decrypt_encrypt.
  change (decrypt_cipher key salt) with (encrypt_cipher key salt).
  apply cipher_encrypt_in_bound. lia.
Qed.

(** C3 (envelope layout).  Whenever [encrypt] returns, what it returns is the
    4-byte prefix, then the 16-byte salt that was drawn, then a ciphertext as
    long as the plaintext, then a 32-byte tag: [52 + len(plaintext)] bytes in
    all, 63 for an 11-byte plaintext and 52 for an empty one. *)
Theorem encrypt_envelope_layout (password : str) (m envelope : bytes) (s s' : rng) :
  encrypt password m s = (Ok envelope, s') ->
  exists salt key ciphertext tag,
    _randbytes (SALT_LEN / 8) s = (Ok salt, s') /\
    _expand_key salt password = Ok key /\
    cipher_encrypt (encrypt_cipher key salt) m = Ok ciphertext /\
    tag = HMAC_digest key (PREFIX ++ salt ++ ciphertext) /\
    envelope = PREFIX ++ salt ++ ciphertext ++ tag /\
    len PREFIX = 4 /\ len salt = 16 /\ len ciphertext = len m /\ len tag = 32 /\
    len envelope = 52 + len m /\
    (len m = 11 -> len envelope = 63) /\
    (m = [] -> len envelope = 52).
Proof using HMAC_digest_size.
  intros He.
  destruct (encrypt_Ok_inv _ _ _ _ _ He) as (salt & key & ct & _ & Er & Ek & Ec & ->).
  assert (Hs : len salt = 16)
    by (eapply (_randbytes_len (SALT_LEN / 8)); [discriminate | eassumption]).
  assert (Hc : len ct = len m)
    by (unfold len; f_equal; eapply cipher_encrypt_length; eassumption).
  assert (Ht : len (HMAC_digest key (PREFIX ++ salt ++ ct)) = 32)
    by apply HMAC_digest_size.
  assert (Hl : len (PREFIX ++ salt ++ ct ++ HMAC_digest key (PREFIX ++ salt ++ ct))
               = 52 + len m)
    by (rewrite !len_app, Hs, Hc, Ht, len_PREFIX; lia).
  exists salt, key, ct, (HMAC_digest key (PREFIX ++ salt ++ ct)).
  repeat split; try assumption.
  - intros H11. rewrite Hl, H11. reflexivity.
  - intros ->. rewrite Hl. reflexivity.
Qed.

(** C7 (what the tag covers).  In an envelope that [encrypt] returns, the
    stored tag is the HMAC, under the derived key, of prefix, salt and
    ciphertext, and all but the last 32 bytes of the envelope are that
    prefix, salt and ciphertext.  [decrypt] recomputes the tag over exactly
    those bytes: with the last 32 bytes replaced by any tag it accepts, and
    returns the plaintext, exactly when the digest of that tag is the digest
    of the HMAC of prefix, salt and ciphertext; and with the ciphertext
    replaced by any other it compares the stored tag with the HMAC of prefix,
    salt and the new ciphertext. *)
Theorem tag_covers_prefix_salt_ciphertext
    (password : str) (m envelope : bytes) (s s' : rng) :
  encrypt password m s = (Ok envelope, s') ->
  exists salt key ciphertext,
    _expand_key salt password = Ok key /\
    cipher_encrypt (encrypt_cipher key salt) m = Ok ciphertext /\
    envelope = PREFIX ++ salt ++ ciphertext
                 ++ HMAC_digest key (PREFIX ++ salt ++ ciphertext) /\
    upto (from envelope (len PREFIX)) (SALT_LEN / 8) = salt /\
    upto envelope (- HASH_digest_size) = PREFIX ++ salt ++ ciphertext /\
    from (from envelope (len PREFIX)) (- HASH_digest_size)
      = HMAC_digest key (upto envelope (- HASH_digest_size)) /\
    (forall tag,
       len tag = HASH_digest_size ->
       decrypt password (upto envelope (- HASH_digest_size) ++ tag) =
         if bytes_neq (HASH_digest tag)
              (HASH_digest (HMAC_digest key (PREFIX ++ salt ++ ciphertext)))
         then Raise (DecryptionException "Bad password or corrupt / modified data")
         else Ok m) /\
    (forall ciphertext',
       decrypt password
         (PREFIX ++ salt ++ ciphertext'
            ++ from (from envelope (len PREFIX)) (- HASH_digest_size)) =
         if bytes_neq (HASH_digest (HMAC_digest key (PREFIX ++ salt ++ ciphertext)))
              (HASH_digest (HMAC_digest key (PREFIX ++ salt ++ ciphertext')))
         then Raise (DecryptionException "Bad password or corrupt / modified data")
         else cipher_decrypt (decrypt_cipher key salt) ciphertext').
Proof using HMAC_digest_size.
  intros He.
  destruct (encrypt_Ok_inv _ _ _ _ _ He) as (salt & key & ct & _ & Er & Ek & Ec & ->).
  assert (Hs : len salt = SALT_LEN / 8)
    by (eapply _randbytes_len; [discriminate | eassumption]).
  destruct (envelope_slices salt ct (HMAC_digest key (PREFIX ++ salt ++ ct)) Hs
              (HMAC_digest_size _ _))
    as (_ & Hsalt & Htag & Hmsg & _ & _).
  exists salt, key, ct. rewrite Hmsg, Htag.
  repeat (split; [solve [auto] |]).
  split.
  - intros tag Ht.
    rewrite <- !app_assoc.
    rewrite (decrypt_fields _ _ _ _ _ Hs Ht Ek).
    change (decrypt_cipher key salt) with (encrypt_cipher key salt).
    rewrite (cipher_decrypt_encrypt _ _ _ Ec). reflexivity.
  - intros ct'.
    apply (decrypt_fields _ _ _ _ _ Hs (HMAC_digest_size _ _) Ek).
Qed.

(** C5 (truncated envelope).  An envelope shorter than 52 bytes, the lengths
    of prefix, salt and tag together, is refused with [Missing data] whatever
    the password and whatever the bytes: no other check comes first. *)
Theorem decrypt_missing_data (password : str) (data : bytes) :
  len data < 52 ->
  len PREFIX + SALT_LEN / 8 + HASH_digest_size = 52 /\
  decrypt password data = Raise (DecryptionException "Missing data") /\
  decrypt [] data = Raise (DecryptionException "Missing data").
Proof.
  intros Hl. split; [reflexivity |].
  assert (Ha : _assert_decrypt_length data
               = Raise (DecryptionException "Missing data")).
  { unfold _assert_decrypt_length.
    change (len PREFIX + SALT_LEN / 8 + HASH_digest_size) with 52.
    destruct (Z.ltb_spec (len data) 52); [reflexivity | lia]. }
  split; rewrite decrypt_unfold, Ha; reflexivity.
Qed.

(** C6 (format prefix).  An envelope of at least 52 bytes whose first four
    bytes are not the prefix [s c 00 00] is refused with [Bad data format]. *)
Theorem decrypt_bad_format (password : str) (data : bytes) :
  52 <= len data ->
  upto data 4 <> [x73; x63; x00; x00] ->
  decrypt password data = Raise (DecryptionException "Bad data format").
Proof.
  intros Hl Hp.
  rewrite decrypt_unfold.
  replace (_assert_decrypt_length data) with (Ok tt)
    by (symmetry; now apply _assert_decrypt_length_Ok).
  unfold _assert_prefix. rewrite len_PREFIX.
  replace (bytes_neq (upto data 4) PREFIX) with true; [reflexivity |].
  symmetry. now apply bytes_neq_true.
Qed.

(** C4 (tag check).  [decrypt] ends in [Bad password or corrupt / modified
    data] exactly when it got as far as the tag check (length, prefix and key
    derivation passed) and the hash of the stored tag differs from the hash
    of the recomputed one; whenever it returns a plaintext, the two hashes
    were equal and the plaintext is the whole output of the cipher; and
    having got as far as the tag check it goes on to the cipher whenever the
    two hashes are equal, whether or not the tags are. *)
Theorem decrypt_hash_then_compare (password : str) (data : bytes) :
  let raw := from data (len PREFIX) in
  let salt := upto raw (SALT_LEN / 8) in
  let hmac := from raw (- HASH_digest_size) in
  let hmac2 := fun key => HMAC_digest key (upto data (- HASH_digest_size)) in
  (decrypt password data
     = Raise (DecryptionException "Bad password or corrupt / modified data")
   <-> exists key,
         52 <= len data /\
         upto data (len PREFIX) = PREFIX /\
         _expand_key salt password = Ok key /\
         HASH_digest hmac <> HASH_digest (hmac2 key)) /\
  (forall plaintext,
     decrypt password data = Ok plaintext ->
     exists key,
       _expand_key salt password = Ok key /\
       HASH_digest hmac = HASH_digest (hmac2 key) /\
       cipher_decrypt (decrypt_cipher key salt)
         (slice raw (SALT_LEN / 8) (- HASH_digest_size)) = Ok plaintext) /\
  (forall key,
     52 <= len data ->
     upto data (len PREFIX) = PREFIX ->
     _expand_key salt password = Ok key ->
     HASH_digest hmac = HASH_digest (hmac2 key) ->
     decrypt password data
       = cipher_decrypt (decrypt_cipher key salt)
           (slice raw (SALT_LEN / 8) (- HASH_digest_size))).
Proof.
  intros raw salt hmac hmac2.
  split; [split |].
  - intros Hd.
    destruct (decrypt_cases password data)
      as [(Hl & E) | [(Hl & Hp & E) | [(Hl & Hp & Hpw & E)
         | [(Hl & Hp & Hpw & _ & E) | [(Hl & Hp & Hpw & key & Hk & Hh & E)
         | (Hl & Hp & Hpw & key & Hk & Hh & E)]]]]];
      rewrite E in Hd; try discriminate Hd.
    + exists key. auto.
    + apply cipher_decrypt_exn in Hd. destruct Hd; discriminate.
  - intros (key & Hl & Hp & Hk & Hh).
    rewrite (decrypt_tag_check password data key Hl Hp Hk).
    fold raw hmac. fold (hmac2 key).
    now rewrite (proj2 (bytes_neq_true _ _) Hh).
  - split.
    + intros plaintext Hd.
      destruct (decrypt_cases password data)
        as [(Hl & E) | [(Hl & Hp & E) | [(Hl & Hp & Hpw & E)
           | [(Hl & Hp & Hpw & _ & E) | [(Hl & Hp & Hpw & key & Hk & Hh & E)
           | (Hl & Hp & Hpw & key & Hk & Hh & E)]]]]];
        rewrite E in Hd; try discriminate Hd.
      exists key. auto.
    + intros key Hl Hp Hk Hh.
      rewrite (decrypt_tag_check password data key Hl Hp Hk).
      fold raw hmac. fold (hmac2 key).
      now rewrite (proj2 (bytes_neq_false _ _) Hh).
Qed.

(** C9 (empty password).  With an empty password, and inputs that get as far
    as key derivation, both operations end in [ValueError]: [encrypt] for any
    plaintext the length check lets through, [b"x"] among them, and [decrypt]
    for any envelope of at least 52 bytes that starts with the prefix. *)
Theorem empty_password_invalid_argument (data : bytes) (s : rng) :
  (len data <= 2 ^ HALF_BLOCK ->
   fst (encrypt [] data s) = Raise (ValueError "Missing password")) /\
  fst (encrypt [] [x78] s) = Raise (ValueError "Missing password") /\
  (52 <= len data ->
   upto data (len PREFIX) = PREFIX ->
   decrypt [] data = Raise (ValueError "Missing password")).
Proof using random_bits_range.
  assert (Henc : forall d, len d <= 2 ^ HALF_BLOCK ->
            fst (encrypt [] d s) = Raise (ValueError "Missing password")).
  { intros d Hd. rewrite encrypt_unfold.
    replace (_assert_encrypt_length d) with (Ok tt)
      by (symmetry; now apply _assert_encrypt_length_Ok).
    destruct (_randbytes_items_total (Z.to_nat (SALT_LEN / 8)) s) as (salt & s' & Er).
    fold (_randbytes (SALT_LEN / 8)) in Er. rewrite Er.
    rewrite _expand_key_empty_password; [reflexivity |].
    apply nonempty_of_len.
    rewrite (_randbytes_len (SALT_LEN / 8) s s' salt); [reflexivity | discriminate | exact Er]. }
  split; [apply Henc |].
  split; [apply Henc; discriminate |].
  intros Hl Hp. rewrite decrypt_unfold.
  replace (_assert_decrypt_length data) with (Ok tt)
    by (symmetry; now apply _assert_decrypt_length_Ok).
  replace (_assert_prefix data) with (Ok tt)
    by (symmetry; now apply _assert_prefix_Ok).
  cbv zeta. rewrite _expand_key_empty_password; [reflexivity |].
  apply nonempty_of_len.
  assert (Hraw : len (from data (len PREFIX)) = len data - 4)
    by (rewrite len_from; rewrite len_PREFIX; lia).
  rewrite len_upto; [reflexivity |].
  rewrite Hraw. change (SALT_LEN / 8) with 16. lia.
Qed.

(** C8 (cipher state), as the code has it.  For every key and salt [encrypt]
    and [decrypt] make the same cipher object: the nonce prefix is the first
    8 bytes of the salt, the count has 64 bits and starts at one (the default
    of the counter, which neither call overrides), so block [i] is enciphered
    from the prefix followed by [1 + i] on 8 bytes, and the keystream of
    decryption is the keystream of encryption. *)
Theorem cipher_state_same_both_ways (key salt : bytes) (i : Z) (n : nat) :
  encrypt_cipher key salt = decrypt_cipher key salt /\
  cipher_key (encrypt_cipher key salt) = key /\
  ctr_prefix (cipher_counter (encrypt_cipher key salt)) = upto salt 8 /\
  ctr_nbits (cipher_counter (encrypt_cipher key salt)) = 64 /\
  ctr_initial_value (cipher_counter (encrypt_cipher key salt)) = 1 /\
  counter_block (cipher_counter (encrypt_cipher key salt)) 0
    = upto salt 8 ++ [x00; x00; x00; x00; x00; x00; x00; x01] /\
  counter_block (cipher_counter (decrypt_cipher key salt)) i
    = upto salt 8 ++ long_to_bytes 8 (1 + i) /\
  keystream (decrypt_cipher key salt) n = keystream (encrypt_cipher key salt) n /\
  (forall data encrypted,
     cipher_encrypt (encrypt_cipher key salt) data = Ok encrypted ->
     cipher_decrypt (decrypt_cipher key salt) encrypted = Ok data).
Proof.
  assert (Hsame : encrypt_cipher key salt = decrypt_cipher key salt) by reflexivity.
  split; [exact Hsame |].
  rewrite <- Hsame.
  unfold encrypt_cipher, Counter_new, AES_new, counter_block.
  cbn [cipher_key cipher_counter ctr_prefix ctr_nbits ctr_initial_value].
  change (HALF_BLOCK / 8) with 8. change (Z.to_nat (HALF_BLOCK / 8)) with 8%nat.
  repeat (split; [reflexivity |]).
  intros data encrypted. apply cipher_decrypt_encrypt.
Qed.

(** ** Further properties of the helpers and the entry points *)

(** X1 ([_randbytes]).  With a random source that keeps its contract,
    [_randbytes(n)] makes exactly [n] draws of 8 bits, returns the bytes drawn
    in the order drawn, [max(0, n)] of them, and for [n <= 0] returns the
    empty byte string without drawing. *)
Theorem randbytes_draws_in_order (n : Z) (s : rng) :
  _randbytes n s = (Ok (drawn_bytes (Z.to_nat n) s), rng_after (Z.to_nat n) s) /\
  len (drawn_bytes (Z.to_nat n) s) = Z.max 0 n /\
  (n <= 0 -> _randbytes n s = (Ok [], s)).
Proof using random_bits_range.
  split; [apply _randbytes_items_draws |].
  split.
  - unfold len. rewrite drawn_bytes_length. lia.
  - intros Hn. unfold _randbytes.
    replace (Z.to_nat n) with 0%nat by lia. reflexivity.
Qed.

(** X2 (outcomes of [encrypt]).  For every plaintext the interpreter can
    hold, at most [sys.maxsize] bytes, the length check passes, and [encrypt]
    returns an envelope or ends in one of three exceptions:
    [Missing password], the [UnicodeEncodeError] of a password with a lone
    surrogate, or the [ValueError] of [bytes] on a draw outside [range(256)].
    It never ends in [Message too long] or any other
    [EncryptionException], in [Missing salt], in a counter overflow or in a
    [DecryptionException]. *)
Theorem encrypt_outcomes (password : str) (data : bytes) (s : rng) :
  len data <= sys_maxsize ->
  ((exists envelope, fst (encrypt password data s) = Ok envelope) \/
   fst (encrypt password data s) = Raise (ValueError "Missing password") \/
   fst (encrypt password data s)
     = Raise (UnicodeEncodeError "surrogates not allowed") \/
   fst (encrypt password data s)
     = Raise (ValueError "bytes must be in range(0, 256)")) /\
  _assert_encrypt_length data = Ok tt /\
  (forall msg, fst (encrypt password data s) <> Raise (EncryptionException msg)) /\
  fst (encrypt password data s) <> Raise (ValueError "Missing salt") /\
  (forall msg, fst (encrypt password data s) <> Raise (OverflowError msg)) /\
  (forall msg, fst (encrypt password data s) <> Raise (DecryptionException msg)).
Proof.
  intros Hmax.
  assert (Hl : len data <= 2 ^ HALF_BLOCK)
    by (pose proof sys_maxsize_in_bound; lia).
  assert (Ha : _assert_encrypt_length data = Ok tt)
    by now apply _assert_encrypt_length_Ok.
  destruct (encrypt_cases password data s)
    as [(Hgt & _) | [(_ & s1 & _ & E) | [(_ & salt & s1 & _ & _ & E)
       | [(_ & salt & s1 & e & _ & _ & _ & E)
       | (_ & salt & s1 & key & envelope & _ & _ & _ & E)]]]];
    [lia | | | |];
    rewrite E; cbn [fst];
    (split; [| split; [exact Ha | repeat split; intros; discriminate]]).
  - right. right. right. reflexivity.
  - right. left. reflexivity.
  - right. right. left. reflexivity.
  - left. exists envelope. reflexivity.
Qed.

(** X3 (early errors of [decrypt]).  [decrypt] ends in [Missing data] exactly
    for data shorter than 52 bytes, in [Bad data format] exactly for data of
    at least 52 bytes that does not start with the prefix, and in
    [Missing password] exactly for data of at least 52 bytes that starts with
    the prefix when the password is empty.  It never ends in [Missing salt]
    or in an [EncryptionException]. *)
Theorem decrypt_error_conditions (password : str) (data : bytes) :
  (decrypt password data = Raise (DecryptionException "Missing data")
   <-> len data < 52) /\
  (decrypt password data = Raise (DecryptionException "Bad data format")
   <-> 52 <= len data /\ upto data (len PREFIX) <> PREFIX) /\
  (decrypt password data = Raise (ValueError "Missing password")
   <-> 52 <= len data /\ upto data (len PREFIX) = PREFIX /\ password = []) /\
  decrypt password data <> Raise (ValueError "Missing salt") /\
  (forall msg, decrypt password data <> Raise (EncryptionException msg)).
Proof.
  destruct (decrypt_cases password data)
    as [(Hl & E) | [(Hl & Hp & E) | [(Hl & Hp & Hpw & E)
       | [(Hl & Hp & Hpw & _ & E) | [(Hl & Hp & Hpw & key & _ & _ & E)
       | (Hl & Hp & Hpw & key & _ & _ & E)]]]]];
    rewrite E.
  6:{ destruct (cipher_decrypt _ _) as [pt | e] eqn:Ec.
      - repeat split; intros; try discriminate;
          try (exfalso; intuition (lia || congruence)).
      - apply cipher_decrypt_exn in Ec. destruct Ec as [msg ->].
        repeat split; intros; try discriminate;
          try (exfalso; intuition (lia || congruence)). }
  all: repeat split; intros; try discriminate; try assumption; try lia;
    try (exfalso; intuition (lia || congruence)).
Qed.

(** X4 (what a returned plaintext tells).  When [decrypt] returns, the data
    had at least 52 bytes and started with the prefix, the password was not
    empty, and the plaintext is 52 bytes shorter than the data. *)
Theorem decrypt_plaintext_length (password : str) (data plaintext : bytes) :
  decrypt password data = Ok plaintext ->
  52 <= len data /\
  upto data (len PREFIX) = PREFIX /\
  password <> [] /\
  len plaintext = len data - 52.
Proof.
  intros H.
  destruct (decrypt_cases password data)
    as [(Hl & E) | [(Hl & Hp & E) | [(Hl & Hp & Hpw & E)
       | [(Hl & Hp & Hpw & _ & E) | [(Hl & Hp & Hpw & key & _ & _ & E)
       | (Hl & Hp & Hpw & key & _ & _ & E)]]]]];
    rewrite E in H; try discriminate.
  repeat split; try assumption.
  apply cipher_decrypt_length in H. unfold len at 1. rewrite H.
  fold (len (slice (from data (len PREFIX)) (SALT_LEN / 8) (- HASH_digest_size))).
  assert (Hraw : len (from data (len PREFIX)) = len data - 4)
    by (rewrite len_from; rewrite len_PREFIX; lia).
  rewrite len_slice_from_end; rewrite ?Hraw;
    change (SALT_LEN / 8) with 16; change HASH_digest_size with 32; lia.
Qed.

(** X5 (fields of an envelope).  For a 16-byte salt, any ciphertext, any
    32-byte tag and a non-empty password, [decrypt] of prefix, salt,
    ciphertext and tag in that order does one of two things.  When the
    password encodes as UTF-8 it derives the key from the encoded password
    and that salt, ends in [Bad password or corrupt / modified data] when the
    hash of the tag differs from the hash of the HMAC of prefix, salt and
    ciphertext, and otherwise deciphers exactly that ciphertext.  When the
    password holds a lone surrogate it ends in [UnicodeEncodeError]. *)
Theorem decrypt_laid_out_envelope (password : str) (salt ct tag : bytes) :
  len salt = SALT_LEN / 8 ->
  len tag = HASH_digest_size ->
  password <> [] ->
  (forall encoded,
     encode_utf8 password = Ok encoded ->
     let key := PBKDF2 encoded salt (AES_KEY_LEN / 8) EXPANSION_COUNT
                  (fun p s => HMAC_digest p s) in
     decrypt password (PREFIX ++ salt ++ ct ++ tag) =
       if bytes_neq (HASH_digest tag)
            (HASH_digest (HMAC_digest key (PREFIX ++ salt ++ ct)))
       then Raise (DecryptionException "Bad password or corrupt / modified data")
       else cipher_decrypt (decrypt_cipher key salt) ct) /\
  (forall e,
     encode_utf8 password = Raise e ->
     decrypt password (PREFIX ++ salt ++ ct ++ tag)
       = Raise (UnicodeEncodeError "surrogates not allowed")).
Proof.
  intros Hs Ht Hp.
  assert (Hne : salt <> [])
    by (apply nonempty_of_len; rewrite Hs; reflexivity).
  split.
  - intros encoded Henc key.
    apply decrypt_fields; try assumption.
    now apply _expand_key_nonempty.
  - intros e Henc.
    destruct (envelope_slices salt ct tag Hs Ht)
      as (Hpre & Hsalt & _ & _ & _ & Hlen).
    rewrite decrypt_unfold. cbv zeta.
    replace (_assert_decrypt_length _) with (Ok tt)
      by (symmetry; apply _assert_decrypt_length_Ok; rewrite Hlen;
          pose proof (len_nonneg ct); lia).
    replace (_assert_prefix _) with (Ok tt)
      by (symmetry; now apply _assert_prefix_Ok).
    rewrite Hsalt, (_expand_key_unencodable _ _ _ Hne Hp Henc). reflexivity.
Qed.

(** X6 (fresh salt, fresh envelope).  Two calls of [encrypt] that return, and
    whose draws of the salt differ, return different envelopes, whatever the
    passwords and plaintexts. *)
Theorem fresh_salt_fresh_envelope
    (password1 password2 : str) (m1 m2 e1 e2 : bytes) (s1 s2 t1 t2 : rng) :
  encrypt password1 m1 s1 = (Ok e1, t1) ->
  encrypt password2 m2 s2 = (Ok e2, t2) ->
  fst (_randbytes (SALT_LEN / 8) s1) <> fst (_randbytes (SALT_LEN / 8) s2) ->
  e1 <> e2.
Proof using HMAC_digest_size.
  intros H1 H2 Hsalt Heq.
  destruct (encrypt_Ok_inv _ _ _ _ _ H1) as (salt1 & key1 & ct1 & _ & Er1 & _ & _ & E1).
  destruct (encrypt_Ok_inv _ _ _ _ _ H2) as (salt2 & key2 & ct2 & _ & Er2 & _ & _ & E2).
  assert (Hs1 : len salt1 = SALT_LEN / 8)
    by (eapply _randbytes_len; [discriminate | eassumption]).
  assert (Hs2 : len salt2 = SALT_LEN / 8)
    by (eapply _randbytes_len; [discriminate | eassumption]).
  destruct (envelope_slices salt1 ct1 _ Hs1 (HMAC_digest_size key1 (PREFIX ++ salt1 ++ ct1)))
    as (_ & Hcut1 & _).
  destruct (envelope_slices salt2 ct2 _ Hs2 (HMAC_digest_size key2 (PREFIX ++ salt2 ++ ct2)))
    as (_ & Hcut2 & _).
  rewrite <- E1 in Hcut1. rewrite <- E2 in Hcut2.
  apply Hsalt. rewrite Er1, Er2. cbn [fst]. congruence.
Qed.

(** X7 (randomness consumed).  With a random source that keeps its contract,
    every call of [encrypt] that passes the length check leaves the random
    source 16 draws further, also when it then fails on an empty password;
    and when it returns, bytes 4 to 19 of the envelope are the 16 bytes
    drawn, in the order drawn. *)
Theorem encrypt_consumes_salt_draws (password : str) (data : bytes) (s : rng) :
  len data <= 2 ^ HALF_BLOCK ->
  snd (encrypt password data s) = rng_after 16 s /\
  snd (encrypt [] data s) = rng_after 16 s /\
  (forall envelope s',
     encrypt password data s = (Ok envelope, s') ->
     slice envelope 4 20 = drawn_bytes 16 s).
Proof using random_bits_range HMAC_digest_size.
  intros Hl.
  assert (Hd : _randbytes (SALT_LEN / 8) s = (Ok (drawn_bytes 16 s), rng_after 16 s))
    by apply _randbytes_items_draws.
  assert (Hstate : forall p, snd (encrypt p data s) = rng_after 16 s).
  { intros p.
    destruct (encrypt_cases p data s)
      as [(Hgt & _) | [(_ & s1 & Er & _) | [(_ & salt & s1 & Er & _ & E)
         | [(_ & salt & s1 & e & Er & _ & _ & E)
         | (_ & salt & s1 & key & envelope & Er & _ & _ & E)]]]];
      [lia | congruence | | |]; rewrite E; cbn [snd]; congruence. }
  split; [apply Hstate |]. split; [apply Hstate |].
  intros envelope s' He.
  destruct (encrypt_Ok_inv _ _ _ _ _ He) as (salt & key & ct & _ & Er & _ & _ & ->).
  assert (salt = drawn_bytes 16 s) by congruence. subst salt.
  assert (Hs : len (drawn_bytes 16 s) = 16)
    by (unfold len; now rewrite drawn_bytes_length).
  unfold slice. cbv zeta.
  assert (Hlen : len (PREFIX ++ drawn_bytes 16 s ++ ct
                        ++ HMAC_digest key (PREFIX ++ drawn_bytes 16 s ++ ct))
                 = 52 + len ct)
    by (rewrite !len_app, Hs, HMAC_digest_size, len_PREFIX;
        change HASH_digest_size with 32; lia).
  pose proof (len_nonneg ct).
  rewrite !slice_index_inside by lia.
  change (Z.to_nat 4) with (Z.to_nat (len PREFIX)). rewrite skipn_len_app.
  change (Z.to_nat (20 - 4)) with (Z.to_nat 16). rewrite <- Hs.
  apply firstn_len_app.
Qed.

(** X8 (a genuine envelope under any password).  An envelope that [encrypt]
    returned passes the length and prefix checks of [decrypt] under every
    password: [decrypt] ends in [Missing password] for the empty password, in
    [UnicodeEncodeError] for a password with a lone surrogate, and for any
    other password in [Bad password or corrupt / modified data] unless it
    returns as many bytes as the plaintext had. *)
Theorem decrypt_genuine_envelope_any_password
    (password password' : str) (m envelope : bytes) (s s' : rng) :
  encrypt password m s = (Ok envelope, s') ->
  (password' = [] /\
   decrypt password' envelope = Raise (ValueError "Missing password")) \/
  (password' <> [] /\ (exists e, encode_utf8 password' = Raise e) /\
   decrypt password' envelope
     = Raise (UnicodeEncodeError "surrogates not allowed")) \/
  (password' <> [] /\ (exists encoded, encode_utf8 password' = Ok encoded) /\
   (decrypt password' envelope
      = Raise (DecryptionException "Bad password or corrupt / modified data") \/
    exists plaintext,
      decrypt password' envelope = Ok plaintext /\ len plaintext = len m)).
Proof using HMAC_digest_size.
  intros He.
  destruct (encrypt_Ok_inv _ _ _ _ _ He) as (salt & key & ct & Hl & Er & _ & Ec & ->).
  assert (Hs : len salt = SALT_LEN / 8)
    by (eapply _randbytes_len; [discriminate | eassumption]).
  assert (Hc : len ct = len m)
    by (unfold len; f_equal; eapply cipher_encrypt_length; eassumption).
  assert (Hne : salt <> [])
    by (apply nonempty_of_len; rewrite Hs; reflexivity).
  set (tag := HMAC_digest key (PREFIX ++ salt ++ ct)).
  assert (Ht : len tag = HASH_digest_size) by apply HMAC_digest_size.
  destruct (envelope_slices salt ct tag Hs Ht)
    as (Hpre & Hsalt & _ & _ & _ & Hlen).
  assert (Hchecks : forall e,
            _expand_key salt password' = Raise e ->
            decrypt password' (PREFIX ++ salt ++ ct ++ tag) = Raise e).
  { intros e Hk. rewrite decrypt_unfold. cbv zeta.
    replace (_assert_decrypt_length _) with (Ok tt)
      by (symmetry; apply _assert_decrypt_length_Ok; rewrite Hlen;
          pose proof (len_nonneg ct); lia).
    replace (_assert_prefix _) with (Ok tt)
      by (symmetry; now apply _assert_prefix_Ok).
    now rewrite Hsalt, Hk. }
  assert (Hcase : password' = [] \/ password' <> [])
    by (destruct password'; [left; reflexivity | right; discriminate]).
  destruct Hcase as [-> | Hp].
  { left. split; [reflexivity |].
    apply Hchecks. now apply _expand_key_empty_password. }
  right.
  destruct (encode_utf8 password') as [encoded | e] eqn:Ee.
  - right. split; [exact Hp |]. split; [eauto |].
    rewrite (decrypt_fields _ _ _ _ _ Hs Ht (_expand_key_nonempty _ _ _ Hne Hp Ee)).
    destruct (bytes_neq _ _); [left; reflexivity | right].
    rewrite cipher_decrypt_in_bound by lia.
    eexists. split; [reflexivity |].
    unfold len. rewrite xor_bytes_length by apply keystream_length.
    exact Hc.
  - left. split; [exact Hp |]. split; [eauto |].
    apply Hchecks. now apply (_expand_key_unencodable _ _ e).
Qed.

(** X10 (every envelope opens).  Whenever [encrypt] returns an envelope,
    [decrypt] with the same password returns the plaintext: this covers
    every plaintext [encrypt] accepts, and asks nothing of the random
    source. *)
Theorem decrypt_inverts_every_envelope
    (password : str) (m envelope : bytes) (s s' : rng) :
  encrypt password m s = (Ok envelope, s') ->
  decrypt password envelope = Ok m.
Proof using HMAC_digest_size.
  intros He.
  destruct (encrypt_Ok_inv _ _ _ _ _ He) as (salt & key & ct & _ & Er & Ek & Ec & ->).
  assert (Hs : len salt = SALT_LEN / 8)
    by (eapply _randbytes_len; [discriminate | eassumption]).
  rewrite (decrypt_envelope _ _ _ _ Hs Ek).
  apply cipher_decrypt_encrypt.
  exact Ec.
Qed.

End SimpleCryptProperties.


Lemma long_to_bytes_length (n : nat) : forall v, List.length (long_to_bytes n v) = n.
Proof.
  induction n as [| n IH]; intros v; cbn [long_to_bytes]; [reflexivity |].
  rewrite length_app, IH. cbn [List.length]. lia.
Qed.

Lemma toy_random_bits_range (k s : Z) :
  0 <= k -> 0 <= fst (Toy.random_bits k s) < 2 ^ k.
Proof.
  intros Hk. unfold Toy.random_bits. cbn [fst].
  apply Z.mod_pos_bound. now apply Z.pow_pos_nonneg.
Qed.

Lemma toy_HMAC_digest_size (key msg : bytes) :
  len (Toy.HMAC_digest key msg) = HASH_digest_size.
Proof.
  unfold Toy.HMAC_digest, len. now rewrite long_to_bytes_length.
Qed.

Lemma toy_encrypt_hello_world :
  toy_encrypt (text "correct horse battery staple") Toy.hello_world 42
  = (Ok toy_envelope, toy_state).
Proof. vm_compute. reflexivity. Qed.

Lemma toy_password_nonempty : text "correct horse battery staple" <> [].
Proof. discriminate. Qed.


Lemma toy_password_encodes :
  encode_utf8 (text "correct horse battery staple") = Ok toy_password_utf8.
Proof. vm_compute. reflexivity. Qed.

(** Scenario 1 of the round trip: [b"hello world"] under
    ["correct horse battery staple"]. *)
Lemma decrypt_encrypt_roundtrip_witness :
  exists envelope s',
    toy_encrypt (text "correct horse battery staple") Toy.hello_world 42 = (Ok envelope, s') /\
    toy_decrypt (text "correct horse battery staple") envelope = Ok Toy.hello_world.
Proof.
  apply (decrypt_encrypt_roundtrip (C := Toy.crypto)
           toy_random_bits_range toy_HMAC_digest_size
           (text "correct horse battery staple") toy_password_utf8).
  - exact toy_password_nonempty.
  - exact toy_password_encodes.
  - reflexivity.
Defined.

(** A non-empty password that is one lone surrogate, with the plaintext of
    scenario 1: [encrypt] ends in [UnicodeEncodeError], so there is no
    envelope to open. *)
Lemma lone_surrogate_password_not_encrypted :
  lone_surrogate <> [] /\
  len Toy.hello_world < 2 ^ HALF_BLOCK /\
  fst (toy_encrypt lone_surrogate Toy.hello_world 42)
    = Raise (UnicodeEncodeError "surrogates not allowed") /\
  ~ (exists envelope s',
       toy_encrypt lone_surrogate Toy.hello_world 42 = (Ok envelope, s') /\
       toy_decrypt lone_surrogate envelope = Ok Toy.hello_world).
Proof.
  split; [discriminate |].
  split; [reflexivity |].
  assert (E : fst (toy_encrypt lone_surrogate Toy.hello_world 42)
              = Raise (UnicodeEncodeError "surrogates not allowed"))
    by (vm_compute; reflexivity).
  split; [exact E |].
  intros (envelope & s' & He & _). rewrite He in E. discriminate E.
Qed.

(** The 11-byte plaintext gives a 63-byte envelope. *)
Lemma encrypt_envelope_layout_witness :
  exists salt key ciphertext tag,
    _randbytes (C := Toy.crypto) (SALT_LEN / 8) 42 = (Ok salt, toy_state) /\
    _expand_key (C := Toy.crypto) salt (text "correct horse battery staple") = Ok key /\
    cipher_encrypt (C := Toy.crypto) (encrypt_cipher key salt) Toy.hello_world
      = Ok ciphertext /\
    tag = Toy.HMAC_digest key (PREFIX ++ salt ++ ciphertext) /\
    toy_envelope = PREFIX ++ salt ++ ciphertext ++ tag /\
    len PREFIX = 4 /\ len salt = 16 /\ len ciphertext = len Toy.hello_world /\
    len tag = 32 /\
    len toy_envelope = 52 + len Toy.hello_world /\
    (len Toy.hello_world = 11 -> len toy_envelope = 63) /\
    (Toy.hello_world = [] -> len toy_envelope = 52).
Proof.
  apply (encrypt_envelope_layout (C := Toy.crypto) toy_HMAC_digest_size
           (text "correct horse battery staple")).
  exact toy_encrypt_hello_world.
Defined.

Lemma tag_covers_prefix_salt_ciphertext_witness :
  exists salt key ciphertext,
    _expand_key (C := Toy.crypto) salt (text "correct horse battery staple") = Ok key /\
    cipher_encrypt (C := Toy.crypto) (encrypt_cipher key salt) Toy.hello_world
      = Ok ciphertext /\
    toy_envelope = PREFIX ++ salt ++ ciphertext
                     ++ Toy.HMAC_digest key (PREFIX ++ salt ++ ciphertext) /\
    upto (from toy_envelope (len PREFIX)) (SALT_LEN / 8) = salt /\
    upto toy_envelope (- HASH_digest_size) = PREFIX ++ salt ++ ciphertext /\
    from (from toy_envelope (len PREFIX)) (- HASH_digest_size)
      = Toy.HMAC_digest key (upto toy_envelope (- HASH_digest_size)) /\
    (forall tag,
       len tag = HASH_digest_size ->
       toy_decrypt (text "correct horse battery staple")
         (upto toy_envelope (- HASH_digest_size) ++ tag) =
         if bytes_neq (Toy.HASH_digest tag)
              (Toy.HASH_digest (Toy.HMAC_digest key (PREFIX ++ salt ++ ciphertext)))
         then Raise (DecryptionException "Bad password or corrupt / modified data")
         else Ok Toy.hello_world) /\
    (forall ciphertext',
       toy_decrypt (text "correct horse battery staple")
         (PREFIX ++ salt ++ ciphertext'
            ++ from (from toy_envelope (len PREFIX)) (- HASH_digest_size)) =
         if bytes_neq
              (Toy.HASH_digest (Toy.HMAC_digest key (PREFIX ++ salt ++ ciphertext)))
              (Toy.HASH_digest (Toy.HMAC_digest key (PREFIX ++ salt ++ ciphertext')))
         then Raise (DecryptionException "Bad password or corrupt / modified data")
         else cipher_decrypt (C := Toy.crypto) (decrypt_cipher key salt) ciphertext').
Proof.
  apply (tag_covers_prefix_salt_ciphertext (C := Toy.crypto) toy_HMAC_digest_size
           (text "correct horse battery staple") Toy.hello_world toy_envelope 42 toy_state).
  exact toy_encrypt_hello_world.
Defined.

(** Scenario 4: the first ten bytes of the envelope. *)
Lemma decrypt_missing_data_witness :
  len PREFIX + SALT_LEN / 8 + HASH_digest_size = 52 /\
  toy_decrypt (text "correct horse battery staple") (upto toy_envelope 10)
    = Raise (DecryptionException "Missing data") /\
  toy_decrypt [] (upto toy_envelope 10)
    = Raise (DecryptionException "Missing data").
Proof.
  apply (decrypt_missing_data (C := Toy.crypto)).
  reflexivity.
Defined.

(** Scenario 5: the envelope with [b"XXXX"] in place of its first four bytes. *)
Lemma decrypt_bad_format_witness :
  toy_decrypt (text "correct horse battery staple")
    ([x58; x58; x58; x58] ++ from toy_envelope 4)
    = Raise (DecryptionException "Bad data format").
Proof.
  apply (decrypt_bad_format (C := Toy.crypto)).
  - vm_compute. discriminate.
  - vm_compute. discriminate.
Defined.

(** Scenario 2, [encrypt("", b"x")], and the envelope of scenario 1 opened with
    an empty password. *)
Lemma empty_password_invalid_argument_witness :
  fst (toy_encrypt [] [x78] 42) = Raise (ValueError "Missing password") /\
  toy_decrypt [] toy_envelope = Raise (ValueError "Missing password").
Proof.
  pose proof (empty_password_invalid_argument (C := Toy.crypto)
                toy_random_bits_range toy_envelope 42) as (_ & Henc & Hdec).
  split.
  - exact Henc.
  - apply Hdec.
    + vm_compute. discriminate.
    + reflexivity.
Defined.

(** For that salt and key the count of the cipher object does not start at
    zero: the first counter block ends in [01]. *)
Lemma counter_does_not_start_at_zero :
  ~ (encrypt_cipher toy_key toy_salt = decrypt_cipher toy_key toy_salt /\
     ctr_prefix (cipher_counter (encrypt_cipher toy_key toy_salt)) = upto toy_salt 8 /\
     ctr_initial_value (cipher_counter (encrypt_cipher toy_key toy_salt)) = 0 /\
     ctr_initial_value (cipher_counter (decrypt_cipher toy_key toy_salt)) = 0 /\
     counter_block (cipher_counter (encrypt_cipher toy_key toy_salt)) 0
       = upto toy_salt 8 ++ [x00; x00; x00; x00; x00; x00; x00; x00] /\
     keystream (C := Toy.crypto) (decrypt_cipher toy_key toy_salt) 16
       = keystream (C := Toy.crypto) (encrypt_cipher toy_key toy_salt) 16).
Proof.
  intros (_ & _ & Hzero & _).
  cbn in Hzero. discriminate Hzero.
Qed.

(** ** The remaining scenarios, run on the concrete instance *)

(** Scenario 3: the envelope of scenario 1 opened with another password. *)
Example toy_wrong_password :
  toy_decrypt (text "wrong password") toy_envelope
  = Raise (DecryptionException "Bad password or corrupt / modified data").
Proof. vm_compute. reflexivity. Qed.

(** Scenario 6: an empty plaintext gives a 52-byte envelope that opens to the
    empty plaintext. *)
Example toy_empty_plaintext :
  match fst (toy_encrypt (text "pw") [] 42) with
  | Ok envelope => len envelope = 52 /\ toy_decrypt (text "pw") envelope = Ok []
  | Raise _ => False
  end.
Proof. vm_compute. split; reflexivity. Qed.

(** A tag with one bit flipped is refused. *)
Example toy_tampered_tag :
  toy_decrypt (text "correct horse battery staple")
    (upto toy_envelope 62 ++ [byte_xor x01 (last toy_envelope x00)])
  = Raise (DecryptionException "Bad password or corrupt / modified data").
Proof. vm_compute. reflexivity. Qed.


(** A tag that differs from the stored one in its last two bytes and has the
    same hash under the stand-in hash is accepted: the hashes are compared,
    not the tags. *)
Example toy_colliding_tag :
  upto toy_envelope 61 ++ [x2d; x2e] <> toy_envelope /\
  Toy.HASH_digest (from (upto toy_envelope 61 ++ [x2d; x2e]) (- HASH_digest_size))
    = Toy.HASH_digest toy_tag /\
  toy_decrypt (text "correct horse battery staple")
    (upto toy_envelope 61 ++ [x2d; x2e])
  = Ok Toy.hello_world.
Proof.
  split; [vm_compute; discriminate |].
  split; vm_compute; reflexivity.
Qed.

(** ** Further properties, on the counter and on concrete inputs *)

(** X9 (counter blocks).  For a salt of at least 8 bytes, the 16 that
    [encrypt] draws among them, every counter block of the cipher object of
    [encrypt], and of [decrypt], has the size of one AES block, and starts
    with the first 8 bytes of the salt. *)
Theorem counter_block_is_one_cipher_block (key salt : bytes) (i : Z) :
  HALF_BLOCK / 8 <= len salt ->
  len (counter_block (cipher_counter (encrypt_cipher key salt)) i) = AES_block_size /\
  len (counter_block (cipher_counter (decrypt_cipher key salt)) i) = AES_block_size /\
  upto (counter_block (cipher_counter (encrypt_cipher key salt)) i) (HALF_BLOCK / 8)
    = upto salt (HALF_BLOCK / 8).
Proof.
  intros Hs.
  change (decrypt_cipher key salt) with (encrypt_cipher key salt).
  unfold encrypt_cipher, Counter_new, AES_new, counter_block.
  cbn [cipher_counter ctr_prefix ctr_nbits ctr_initial_value].
  assert (Hp : len (upto salt (HALF_BLOCK / 8)) = HALF_BLOCK / 8)
    by (apply len_upto; split; [discriminate | exact Hs]).
  assert (Hb : len (upto salt (HALF_BLOCK / 8)
                      ++ long_to_bytes (Z.to_nat (HALF_BLOCK / 8)) (1 + i))
               = AES_block_size).
  { rewrite len_app, Hp. unfold len. rewrite long_to_bytes_length. reflexivity. }
  repeat split; try exact Hb.
  apply upto_app. symmetry. exact Hp.
Qed.

Lemma toy_decrypt_hello_world :
  toy_decrypt (text "correct horse battery staple") toy_envelope = Ok Toy.hello_world.
Proof. vm_compute. reflexivity. Qed.

Lemma toy_encrypt_hello_world_43 :
  toy_encrypt (text "correct horse battery staple") Toy.hello_world 43
  = (Ok toy_envelope_43,
     snd (toy_encrypt (text "correct horse battery staple") Toy.hello_world 43)).
Proof. vm_compute. reflexivity. Qed.

Lemma toy_salts_differ :
  fst (_randbytes (C := Toy.crypto) (SALT_LEN / 8) 42)
  <> fst (_randbytes (C := Toy.crypto) (SALT_LEN / 8) 43).
Proof. vm_compute. discriminate. Qed.

Lemma encrypt_outcomes_witness :
  ((exists envelope,
      fst (toy_encrypt lone_surrogate Toy.hello_world 42) = Ok envelope) \/
   fst (toy_encrypt lone_surrogate Toy.hello_world 42)
     = Raise (ValueError "Missing password") \/
   fst (toy_encrypt lone_surrogate Toy.hello_world 42)
     = Raise (UnicodeEncodeError "surrogates not allowed") \/
   fst (toy_encrypt lone_surrogate Toy.hello_world 42)
     = Raise (ValueError "bytes must be in range(0, 256)")) /\
  _assert_encrypt_length Toy.hello_world = Ok tt /\
  (forall msg,
     fst (toy_encrypt lone_surrogate Toy.hello_world 42)
     <> Raise (EncryptionException msg)) /\
  fst (toy_encrypt lone_surrogate Toy.hello_world 42)
    <> Raise (ValueError "Missing salt") /\
  (forall msg,
     fst (toy_encrypt lone_surrogate Toy.hello_world 42) <> Raise (OverflowError msg)) /\
  (forall msg,
     fst (toy_encrypt lone_surrogate Toy.hello_world 42)
     <> Raise (DecryptionException msg)).
Proof.
  apply (encrypt_outcomes (C := Toy.crypto)).
  vm_compute. discriminate.
Defined.

Lemma randbytes_draws_in_order_witness :
  _randbytes (C := Toy.crypto) 16 42
    = (Ok (drawn_bytes (C := Toy.crypto) (Z.to_nat 16) 42),
       rng_after (C := Toy.crypto) (Z.to_nat 16) 42) /\
  len (drawn_bytes (C := Toy.crypto) (Z.to_nat 16) 42) = Z.max 0 16 /\
  (16 <= 0 -> _randbytes (C := Toy.crypto) 16 42 = (Ok [], 42)).
Proof.
  apply (randbytes_draws_in_order (C := Toy.crypto) toy_random_bits_range).
Defined.

Lemma decrypt_plaintext_length_witness :
  52 <= len toy_envelope /\
  upto toy_envelope (len PREFIX) = PREFIX /\
  text "correct horse battery staple" <> [] /\
  len Toy.hello_world = len toy_envelope - 52.
Proof.
  apply (decrypt_plaintext_length (C := Toy.crypto)).
  exact toy_decrypt_hello_world.
Defined.

(** The envelope of scenario 1 with its tag replaced by 32 zero bytes, under
    the password of scenario 1. *)
Lemma decrypt_laid_out_envelope_witness :
  (forall encoded,
     encode_utf8 (text "correct horse battery staple") = Ok encoded ->
     toy_decrypt (text "correct horse battery staple")
       (PREFIX ++ toy_salt ++ toy_ciphertext ++ repeat x00 32)
     = if bytes_neq
            (Toy.HASH_digest (repeat x00 32))
            (Toy.HASH_digest
               (Toy.HMAC_digest
                  (Toy.PBKDF2 encoded toy_salt (AES_KEY_LEN / 8) EXPANSION_COUNT
                     (fun p s => Toy.HMAC_digest p s))
                  (PREFIX ++ toy_salt ++ toy_ciphertext)))
       then Raise (DecryptionException "Bad password or corrupt / modified data")
       else cipher_decrypt (C := Toy.crypto)
              (decrypt_cipher
                 (Toy.PBKDF2 encoded toy_salt (AES_KEY_LEN / 8) EXPANSION_COUNT
                    (fun p s => Toy.HMAC_digest p s))
                 toy_salt)
              toy_ciphertext) /\
  (forall e,
     encode_utf8 (text "correct horse battery staple") = Raise e ->
     toy_decrypt (text "correct horse battery staple")
       (PREFIX ++ toy_salt ++ toy_ciphertext ++ repeat x00 32)
     = Raise (UnicodeEncodeError "surrogates not allowed")).
Proof.
  apply (decrypt_laid_out_envelope (C := Toy.crypto)).
  - reflexivity.
  - reflexivity.
  - exact toy_password_nonempty.
Defined.

(** The same plaintext and password with the random source in states 42
    and 43. *)
Lemma fresh_salt_fresh_envelope_witness : toy_envelope <> toy_envelope_43.
Proof.
  exact (fresh_salt_fresh_envelope (C := Toy.crypto) toy_HMAC_digest_size
           (text "correct horse battery staple") (text "correct horse battery staple")
           Toy.hello_world Toy.hello_world toy_envelope toy_envelope_43
           42 43 toy_state _
           toy_encrypt_hello_world toy_encrypt_hello_world_43 toy_salts_differ).
Defined.

Lemma encrypt_consumes_salt_draws_witness :
  snd (toy_encrypt (text "correct horse battery staple") Toy.hello_world 42)
    = rng_after (C := Toy.crypto) 16 42 /\
  snd (toy_encrypt [] Toy.hello_world 42) = rng_after (C := Toy.crypto) 16 42 /\
  (forall envelope s',
     toy_encrypt (text "correct horse battery staple") Toy.hello_world 42 = (Ok envelope, s') ->
     slice envelope 4 20 = drawn_bytes (C := Toy.crypto) 16 42).
Proof.
  apply (encrypt_consumes_salt_draws (C := Toy.crypto)
           toy_random_bits_range toy_HMAC_digest_size).
  vm_compute. discriminate.
Defined.

(** Scenario 3 again: the envelope of scenario 1 under ["wrong password"]. *)
Lemma decrypt_genuine_envelope_any_password_witness :
  (text "wrong password" = [] /\
   toy_decrypt (text "wrong password") toy_envelope
     = Raise (ValueError "Missing password")) \/
  (text "wrong password" <> [] /\
   (exists e, encode_utf8 (text "wrong password") = Raise e) /\
   toy_decrypt (text "wrong password") toy_envelope
     = Raise (UnicodeEncodeError "surrogates not allowed")) \/
  (text "wrong password" <> [] /\
   (exists encoded, encode_utf8 (text "wrong password") = Ok encoded) /\
   (toy_decrypt (text "wrong password") toy_envelope
      = Raise (DecryptionException "Bad password or corrupt / modified data") \/
    exists plaintext,
      toy_decrypt (text "wrong password") toy_envelope = Ok plaintext /\
      len plaintext = len Toy.hello_world)).
Proof.
  apply (decrypt_genuine_envelope_any_password (C := Toy.crypto) toy_HMAC_digest_size
           (text "correct horse battery staple") (text "wrong password") Toy.hello_world
           toy_envelope 42 toy_state).
  exact toy_encrypt_hello_world.
Defined.

Lemma counter_block_is_one_cipher_block_witness :
  len (counter_block (cipher_counter (encrypt_cipher toy_key toy_salt)) 5)
    = AES_block_size /\
  len (counter_block (cipher_counter (decrypt_cipher toy_key toy_salt)) 5)
    = AES_block_size /\
  upto (counter_block (cipher_counter (encrypt_cipher toy_key toy_salt)) 5)
      (HALF_BLOCK / 8)
    = upto toy_salt (HALF_BLOCK / 8).
Proof.
  apply counter_block_is_one_cipher_block.
  vm_compute. discriminate.
Defined.

Lemma decrypt_inverts_every_envelope_witness :
  toy_decrypt (text "correct horse battery staple") toy_envelope = Ok Toy.hello_world.
Proof.
  apply (decrypt_inverts_every_envelope (C := Toy.crypto) toy_HMAC_digest_size
           (text "correct horse battery staple") Toy.hello_world toy_envelope 42 toy_state).
  exact toy_encrypt_hello_world.
Defined.
